(** * HomePilot: the preference scorer ([src/ml/scorer.py])

    A shallow embedding of [HouseScorer.score_listings] and
    [HouseScorer._normalize], and the properties of the scoring and ranking
    engine proved (or refuted) on it.

    Numbers.  The scorer computes on pandas columns of int64 and float64.  A
    cell is modelled by [num]: either [NaN] (a missing value) or an exact
    rational.  What is modelled is the way NaN travels through the
    arithmetic, the comparisons, [std], [min], [max] and [fillna], which is
    what the scorer's behaviour on missing data depends on.  What is not
    modelled is the wrap-around of int64 and the rounding, overflow and
    underflow of float64.  The exact arithmetic stands for the one of the
    source on numbers of ordinary size (the range [moderate], which keeps
    int64 from wrapping around and float64 from overflowing); the statements
    that depend on the arithmetic of the columns name that range, the ones on
    exact scores leave a margin for the rounding error of the float sum
    ([float_slack]), and the ones on the guard [std() == 0] of equal values
    are stated for integers, whose sums are exact in float64.  Infinities do
    not occur: the only division is the one of [_normalize], and there a zero
    denominator comes with a zero numerator (lemma [normalize_zero_range]). *)

From Stdlib Require Import QArith Qminmax Qround Qabs Lqa Lia.
From stdpp Require Import gmap strings list sorting.

Local Open Scope Q_scope.

(** ** Float cells *)

Inductive num : Type :=
  | NaN
  | Fin (q : Q).

Definition num_lift2 (f : Q → Q → Q) (a b : num) : num :=
  match a, b with
  | Fin x, Fin y => Fin (f x y)
  | _, _ => NaN
  end.

Definition num_sub : num → num → num := num_lift2 Qminus.
Definition num_mul : num → num → num := num_lift2 Qmult.

(** Float division; [0 / 0] is NaN. *)
Definition num_div (a b : num) : num :=
  match a, b with
  | Fin x, Fin y => if Qeq_bool y 0 then NaN else Fin (x / y)
  | _, _ => NaN
  end.

Definition num_abs (a : num) : num :=
  match a with
  | Fin x => Fin (Qabs x)
  | NaN => NaN
  end.

(** [Series.fillna(d)] on one cell; the result is never NaN. *)
Definition fillna (d : Q) (a : num) : Q :=
  match a with
  | NaN => d
  | Fin x => x
  end.

(** Comparisons of a cell with a bound; [None] is the bound [float('inf')].
    A comparison with NaN is false. *)
Definition num_le_bound (a : num) (b : option Q) : bool :=
  match a, b with
  | NaN, _ => false
  | Fin _, None => true
  | Fin x, Some y => Qle_bool x y
  end.

Definition num_ge (a : num) (b : Q) : bool :=
  match a with
  | NaN => false
  | Fin x => Qle_bool b x
  end.

(** ** Series *)

Abbreviation Series := (list num).

(** The values that are not NaN (pandas' reductions skip NaN). *)
Fixpoint present (s : Series) : list Q :=
  match s with
  | [] => []
  | NaN :: s' => present s'
  | Fin x :: s' => x :: present s'
  end.

Definition Qsum (l : list Q) : Q := foldr Qplus 0 l.

Definition Qmin_list (l : list Q) : num :=
  match l with
  | [] => NaN
  | x :: l' => Fin (foldr Qmin x l')
  end.

Definition Qmax_list (l : list Q) : num :=
  match l with
  | [] => NaN
  | x :: l' => Fin (foldr Qmax x l')
  end.

(** [Series.min()] and [Series.max()]. *)
Definition series_min (s : Series) : num := Qmin_list (present s).
Definition series_max (s : Series) : num := Qmax_list (present s).

Definition mean (l : list Q) : Q := Qsum l / inject_Z (Z.of_nat (length l)).

(** [Series.var()] with pandas' default [ddof=1]: NaN when fewer than two
    values are present. *)
Definition series_var (s : Series) : num :=
  let l := present s in
  if decide (length l ≤ 1)%nat then NaN
  else
    let m := mean l in
    Fin (Qsum ((λ x, (x - m) * (x - m)) <$> l)
         / inject_Z (Z.of_nat (length l - 1))).

(** [series.std() == 0].  The standard deviation is the square root of the
    variance, so it is zero exactly when the variance is; NaN is not equal to
    zero.  This is the test in exact arithmetic: it agrees with the one of
    float64 when the sum of the column is exact (integers of ordinary size),
    while for equal values whose sum is rounded pandas finds a tiny positive
    deviation. *)
Definition std_is_zero (s : Series) : bool :=
  match series_var s with
  | Fin v => Qeq_bool v 0
  | NaN => false
  end.

(** [HouseScorer._normalize] *)
Definition _normalize (series : Series) : Series :=
  if std_is_zero series || (length series =? 0)%nat then
    (λ _, Fin 0) <$> series
  else
    (λ x, num_div (num_sub x (series_min series))
                  (num_sub (series_max series) (series_min series))) <$> series.

(** ** Exceptions *)

Inductive error : Type :=
  | KeyError (k : string)
  | TypeError.

Inductive result (A : Type) : Type :=
  | Ok (a : A)
  | Raise (e : error).
Arguments Ok {A} a.
Arguments Raise {A} e.

#[global] Instance result_ret : MRet result := λ A a, Ok a.
#[global] Instance result_bind : MBind result := λ A B f m,
  match m with
  | Ok a => f a
  | Raise e => Raise e
  end.

Definition is_Ok {A} (r : result A) : bool :=
  match r with
  | Ok _ => true
  | Raise _ => false
  end.

(** ** Listings, preferences and data frames *)

(** The value of a key of a listing dict: a number, NaN, or anything else
    (the display attributes are strings).  A number stands for a Python int
    or float of that value; a null field is NaN or an absent key (Python's
    [None] is not among the values of the model). *)
Inductive value : Type :=
  | VNum (q : Q)
  | VNaN
  | VStr (s : string).

(** A listing is a Python dict. *)
Abbreviation listing := (gmap string value).

(** [user_preferences]: each of the four keys may be absent; an absent
    ["priorities"] is the empty dict. *)
Record preferences : Type := {
  max_price : option Q;
  min_beds : option Q;
  min_baths : option Q;
  priorities : gmap string Q
}.

(** [priorities.get(k, 0)] *)
Definition get_weight (priorities : gmap string Q) (k : string) : Q :=
  default 0 (priorities !! k).

(** A data frame: its column labels and its rows, every row holding a cell
    for every column.  Series taken from a frame are aligned with its rows by
    position (pandas aligns them by index label, which comes to the same
    here: every series of the scorer is derived from the same frame). *)
Record DataFrame : Type := {
  columns : gset string;
  rows : list (gmap string value)
}.

(** [pd.DataFrame(listings)]: the columns are the keys that occur in some
    listing; a listing without the key gets NaN in that column. *)
Definition pd_DataFrame (listings : list listing) : DataFrame :=
  let cols : gset string := ⋃ (dom <$> listings) in
  {| columns := cols;
     rows := (λ l : listing, l ∪ gset_to_gmap VNaN cols) <$> listings |}.

(** A cell read as a float.  A string in a numeric column is outside the
    scorer's contract; arithmetic and comparisons on it raise. *)
Definition to_float (v : value) : result num :=
  match v with
  | VNum q => Ok (Fin q)
  | VNaN => Ok NaN
  | VStr _ => Raise TypeError
  end.

Definition cell (r : gmap string value) (c : string) : value :=
  default VNaN (r !! c).

(** [df[c]] used as a numeric series. *)
Definition getitem (df : DataFrame) (c : string) : result Series :=
  if decide (c ∈ columns df) then mapM (λ r, to_float (cell r c)) (rows df)
  else Raise (KeyError c).

(** [df[mask]] *)
Definition boolean_index (df : DataFrame) (mask : list bool) : DataFrame :=
  {| columns := columns df;
     rows := fst <$> filter (λ rb : gmap string value * bool, rb.2 = true)
                        (zip (rows df) mask) |}.

(** [df[c] = vals] *)
Definition setitem (df : DataFrame) (c : string) (vals : list value) : DataFrame :=
  {| columns := columns df ∪ {[c]};
     rows := zip_with (λ r v, <[c := v]> r) (rows df) vals |}.

(** ** The scorer *)

Definition Qlt_bool (x y : Q) : bool := negb (Qle_bool y x).

(** Python's [s.replace(pat, "")] for a non-empty [pat]: every occurrence of
    [pat], found from left to right without overlap, is removed.  [skip]
    counts the characters of the occurrence being removed that are still
    ahead. *)
Fixpoint str_remove_aux (pat : string) (skip : nat) (s : string) : string :=
  match s with
  | EmptyString => EmptyString
  | String c s' =>
      match skip with
      | S k => str_remove_aux pat k s'
      | O =>
          if String.prefix pat s then str_remove_aux pat (String.length pat - 1) s'
          else String c (str_remove_aux pat 0 s')
      end
  end.

Definition str_remove (pat s : string) : string := str_remove_aux pat 0 s.

(** [100 - n * 100] and [n * 100] on a normalized series. *)
Definition inverted (n : Series) : Series :=
  (λ x, num_sub (Fin 100) (num_mul x (Fin 100))) <$> n.
Definition scaled (n : Series) : Series :=
  (λ x, num_mul x (Fin 100)) <$> n.

(** The guard of each component:
    [col in df.columns and priorities.get(key, 0) > 0]. *)
Definition active (df : DataFrame) (prio : gmap string Q) (col key : string) : bool :=
  bool_decide (col ∈ columns df) && Qlt_bool 0 (get_weight prio key).

(** [target_beds = user_preferences.get("min_beds", 3)] *)
Definition target_beds (user_preferences : preferences) : Q :=
  default 3 (min_beds user_preferences).

(** [bed_diff = np.abs(df["beds"] - target_beds)] *)
Definition bed_diff (beds : Series) (target : Q) : Series :=
  (λ b, num_abs (num_sub b (Fin target))) <$> beds.

(** [age = current_year - df["year_built"].fillna(1900)] *)
Definition age (year_built : Series) : Series :=
  (λ y, Fin (2024 - fillna 1900 y)) <$> year_built.

(** One guarded block of the scorer: when the criterion is active, the
    column [name] of the frame [scores] is computed from the column [col] of
    [df]. *)
Definition component (df : DataFrame) (prio : gmap string Q)
    (col key name : string) (f : Series → Series) : result (list (string * Series)) :=
  if active df prio col key then
    s ← getitem df col;
    mret [(name, f s)]
  else mret [].

(** The frame [scores] of the filtered frame [df]: its columns in the order
    in which the scorer adds them. *)
Definition scores (df : DataFrame) (user_preferences : preferences)
    : result (list (string * Series)) :=
  let prio := priorities user_preferences in
  c1 ← component df prio "price" "price" "price_score"
         (λ price, inverted (_normalize price));
  c2 ← component df prio "distance_to_downtown" "location" "location_score"
         (λ dist, inverted (_normalize dist));
  c3 ← component df prio "sqft" "size" "size_score"
         (λ sqft, scaled (_normalize sqft));
  c4 ← component df prio "beds" "bedrooms" "bedroom_score"
         (λ beds, inverted (_normalize (bed_diff beds (target_beds user_preferences))));
  c5 ← component df prio "year_built" "age" "age_score"
         (λ year_built, inverted (_normalize (age year_built)));
  mret (c1 ++ c2 ++ c3 ++ c4 ++ c5).

(** [weight_key = component.replace("_score", "")] *)
Definition weight_key (component : string) : string :=
  str_remove "_score" component.

(** The loop that accumulates [final_scores], starting from
    [np.zeros(len(df))]:
    [final_scores += scores[component].fillna(50) * weight]. *)
Definition final_scores (n : nat) (prio : gmap string Q)
    (scores : list (string * Series)) : list Q :=
  foldl (λ acc (cs : string * Series),
           let weight := get_weight prio (weight_key cs.1) in
           zip_with Qplus acc ((λ c, fillna 50 c * weight) <$> cs.2))
        (replicate n 0) scores.

(** [np.rint]: the nearest integer, ties to the even one. *)
Definition rint (x : Q) : Z :=
  let f := Qfloor x in
  match Qcompare (x - inject_Z f) (1 # 2) with
  | Lt => f
  | Gt => (f + 1)%Z
  | Eq => if Z.even f then f else (f + 1)%Z
  end.

(** [x.round(2)]: numpy scales by 100, rounds to the nearest integer and
    scales back.  Here on the exact value; numpy rounds the float64 value,
    which next to a tie may fall on the other side. *)
Definition round2 (x : Q) : Q := rint (x * 100) # 100.

#[global] Instance Q_eq_dec : EqDecision Q.
Proof. solve_decision. Defined.
#[global] Instance Qlt_dec : RelDecision Qlt :=
  λ x y, decide (Qnum x * QDen y < Qnum y * QDen x)%Z.
#[global] Instance Qle_dec : RelDecision Qle :=
  λ x y, decide (Qnum x * QDen y ≤ Qnum y * QDen x)%Z.

(** [s.rank(ascending=False, method="dense")] at a value [x] of [s]: one
    more than the number of distinct values of [s] above [x].  Values are
    distinct as numbers, so they are counted in lowest terms. *)
Definition rank_dense (s : list Q) (x : Q) : nat :=
  S (length (remove_dups (Qred <$> filter (λ y, x < y) s))).

(** The ["score"] cell of a row, as a float. *)
Definition score_cell (r : gmap string value) : num :=
  match cell r "score" with
  | VNum q => Fin q
  | _ => NaN
  end.

(** The order of [sort_values(ascending=False)]: larger first, NaN last. *)
Definition desc (a b : num) : Prop :=
  match a, b with
  | _, NaN => True
  | NaN, Fin _ => False
  | Fin x, Fin y => y <= x
  end.

Definition by_score_desc (r1 r2 : gmap string value) : Prop :=
  desc (score_cell r1) (score_cell r2).

#[global] Instance desc_dec : RelDecision desc.
Proof. intros [|x] [|y]; simpl; apply _. Defined.
#[global] Instance by_score_desc_dec : RelDecision by_score_desc.
Proof. intros r1 r2. unfold by_score_desc. apply _. Defined.

(** [df.sort_values("score", ascending=False)].  pandas sorts with an
    unstable quicksort by default, so the relative order of rows of equal
    score is not fixed by the source (and is not the one of the model); the
    model sorts with a merge sort, and no property below depends on the order
    of ties. *)
Definition sort_values_desc (df : DataFrame) : DataFrame :=
  {| columns := columns df; rows := merge_sort by_score_desc (rows df) |}.

(** [df.to_dict("records")] *)
Definition to_dict_records (df : DataFrame) : list (gmap string value) := rows df.

(** The mask of the hard requirements. *)
Definition hard_mask (price beds baths : Series) (user_preferences : preferences)
    : list bool :=
  zip_with andb
    (zip_with andb
       ((λ x, num_le_bound x (max_price user_preferences)) <$> price)
       ((λ x, num_ge x (default 0 (min_beds user_preferences))) <$> beds))
    ((λ x, num_ge x (default 0 (min_baths user_preferences))) <$> baths).

(** The frame after the hard requirements (the second [df] of the
    source).  The three columns are read in the order of the source, so the
    first one that is missing is the one reported. *)
Definition hard_filter (listings : list listing) (user_preferences : preferences)
    : result DataFrame :=
  let df := pd_DataFrame listings in
  price ← getitem df "price";
  beds ← getitem df "beds";
  baths ← getitem df "baths";
  mret (boolean_index df (hard_mask price beds baths user_preferences)).

Definition rank_value (r : nat) : value := VNum (inject_Z (Z.of_nat r)).

(** The end of the scorer: the columns ["score"] and ["rank"] are set, the
    frame is sorted and turned into records. *)
Definition ranked (df : DataFrame) (final : list Q) : list (gmap string value) :=
  let score := round2 <$> final in
  let df := setitem df "score" (VNum <$> score) in
  let rank := rank_dense score <$> score in
  let df := setitem df "rank" (rank_value <$> rank) in
  let df := sort_values_desc df in
  to_dict_records df.

(** [HouseScorer.score_listings] *)
Definition score_listings (listings : list listing) (user_preferences : preferences)
    : result (list (gmap string value)) :=
  match listings with
  | [] => mret []
  | _ :: _ =>
      df ← hard_filter listings user_preferences;
      match rows df with
      | [] => mret []
      | _ :: _ =>
          sc ← scores df user_preferences;
          mret (ranked df (final_scores (length (rows df))
                                        (priorities user_preferences) sc))
      end
  end.

(** * Properties *)

(** ** The exception monad *)

Lemma bind_Ok {A B} (m : result A) (f : A → result B) (b : B) :
  m ≫= f = Ok b → ∃ a, m = Ok a ∧ f a = Ok b.
Proof. destruct m as [a|e]; simpl; [eauto | discriminate]. Qed.

Lemma mapM_Ok {A B} (f : A → result B) (l : list A) (k : list B) :
  mapM f l = Ok k → Forall2 (λ x y, f x = Ok y) l k.
Proof.
  revert k. induction l as [|x l IH]; intros k H; simpl in H.
  - injection H as <-. constructor.
  - apply bind_Ok in H as (y & Hy & H).
    apply bind_Ok in H as (k' & Hk' & H).
    injection H as <-. constructor; auto.
Qed.

Lemma mapM_is_Ok {A B} (f : A → result B) (l : list A) :
  Forall (λ x, ∃ y, f x = Ok y) l → ∃ k, mapM f l = Ok k.
Proof.
  induction 1 as [|x l [y Hy] _ [k Hk]]; simpl.
  - by eexists.
  - rewrite Hy. simpl. rewrite Hk. simpl. by eexists.
Qed.

(** A call that returns, returns its value: the way to name the result of a
    call on a concrete input without writing it out. *)
Lemma Ok_match {A} (r : result A) (d : A) :
  is_Ok r = true → r = Ok (match r with Ok a => a | Raise _ => d end).
Proof. by destruct r. Qed.

(** ** Reading a frame *)

Lemma getitem_Ok (df : DataFrame) (c : string) (s : Series) :
  getitem df c = Ok s →
  c ∈ columns df ∧ Forall2 (λ r x, to_float (cell r c) = Ok x) (rows df) s.
Proof.
  unfold getitem. case_decide; [|discriminate].
  intros Hm%mapM_Ok. done.
Qed.

Lemma getitem_lookup (df : DataFrame) (c : string) (s : Series) i r :
  getitem df c = Ok s → rows df !! i = Some r →
  ∃ x, s !! i = Some x ∧ to_float (cell r c) = Ok x.
Proof.
  intros [_ H]%getitem_Ok Hr.
  destruct (Forall2_lookup_l _ _ _ _ _ H Hr) as (x & Hx & Hf). eauto.
Qed.

Lemma getitem_length (df : DataFrame) (c : string) (s : Series) :
  getitem df c = Ok s → length s = length (rows df).
Proof. intros [_ H]%getitem_Ok. symmetry. by eapply Forall2_length. Qed.

Lemma to_float_Fin (v : value) (q : Q) : to_float v = Ok (Fin q) → v = VNum q.
Proof. destruct v; simpl; intros; simplify_eq; done. Qed.

Lemma to_float_NaN (v : value) : to_float v = Ok NaN → v = VNaN.
Proof. destruct v; simpl; intros; simplify_eq; done. Qed.

Lemma elem_of_boolean_index (df : DataFrame) (mask : list bool) r :
  r ∈ rows (boolean_index df mask) ↔
  ∃ i, rows df !! i = Some r ∧ mask !! i = Some true.
Proof.
  unfold boolean_index; simpl. rewrite list_elem_of_fmap. split.
  - intros ([r' b] & -> & [Hb Hin]%list_elem_of_filter). simpl in *. subst b.
    apply list_elem_of_lookup in Hin as [i Hi].
    apply lookup_zip_with_Some in Hi as (x & y & ? & ? & ?). simplify_eq. eauto.
  - intros (i & Hr & Hm). exists (r, true). split; [done|].
    apply list_elem_of_filter. split; [done|].
    apply list_elem_of_lookup. exists i.
    apply lookup_zip_with_Some. eauto.
Qed.

(** ** The hard requirements *)

(** The row that [pd.DataFrame] makes of a listing. *)
Definition row_of (cols : gset string) (l : listing) : gmap string value :=
  l ∪ gset_to_gmap VNaN cols.

Definition all_columns (listings : list listing) : gset string :=
  ⋃ (dom <$> listings).

Lemma row_of_lookup_VNum cols (l : listing) k q :
  row_of cols l !! k = Some (VNum q) → l !! k = Some (VNum q).
Proof.
  unfold row_of. intros [H|[_ H]]%lookup_union_Some_raw; [done|].
  apply lookup_gset_to_gmap_Some in H as [_ ?]. discriminate.
Qed.

Lemma row_of_lookup_Some cols (l : listing) k v :
  l !! k = Some v → row_of cols l !! k = Some v.
Proof. intros H. unfold row_of. by apply lookup_union_Some_l. Qed.

Lemma cell_VNum (r : gmap string value) c q :
  cell r c = VNum q → r !! c = Some (VNum q).
Proof. unfold cell. destruct (r !! c); simpl; intros; by simplify_eq. Qed.

(** A listing passes the hard requirements when its three attributes are
    numbers within the bounds. *)
Definition within_max (p : Q) (bound : option Q) : Prop :=
  ∀ m, bound = Some m → p <= m.

Definition passes (user_preferences : preferences) (l : listing) : Prop :=
  ∃ p b ba,
    l !! "price" = Some (VNum p) ∧ l !! "beds" = Some (VNum b) ∧
    l !! "baths" = Some (VNum ba) ∧
    within_max p (max_price user_preferences) ∧
    default 0 (min_beds user_preferences) <= b ∧
    default 0 (min_baths user_preferences) <= ba.

Lemma num_le_bound_true a bound :
  num_le_bound a bound = true → ∃ p, a = Fin p ∧ within_max p bound.
Proof.
  destruct a as [|p]; simpl; [discriminate|]. intros H. exists p. split; [done|].
  intros m ->. by apply Qle_bool_iff.
Qed.

Lemma num_ge_true a b : num_ge a b = true → ∃ x, a = Fin x ∧ b <= x.
Proof.
  destruct a as [|x]; simpl; [discriminate|]. intros H. exists x.
  split; [done|]. by apply Qle_bool_iff.
Qed.

Lemma hard_mask_true price beds baths prefs i :
  hard_mask price beds baths prefs !! i = Some true →
  ∃ p b ba, price !! i = Some (Fin p) ∧ beds !! i = Some (Fin b) ∧
            baths !! i = Some (Fin ba) ∧
            within_max p (max_price prefs) ∧
            default 0 (min_beds prefs) <= b ∧ default 0 (min_baths prefs) <= ba.
Proof.
  unfold hard_mask. intros H.
  apply lookup_zip_with_Some in H as (m12 & m3 & H & H12 & H3).
  apply lookup_zip_with_Some in H12 as (m1 & m2 & -> & H1 & H2).
  symmetry in H. apply andb_true_iff in H as [[E1 E2]%andb_true_iff E3].
  apply list_lookup_fmap_Some in H1 as (x1 & -> & Hx1).
  apply list_lookup_fmap_Some in H2 as (x2 & -> & Hx2).
  apply list_lookup_fmap_Some in H3 as (x3 & -> & Hx3).
  apply num_le_bound_true in E1 as (p & -> & ?).
  apply num_ge_true in E2 as (b & -> & ?).
  apply num_ge_true in E3 as (ba & -> & ?).
  exists p, b, ba. done.
Qed.

(** What the filtered frame is made of. *)
Lemma hard_filter_Ok listings prefs df :
  hard_filter listings prefs = Ok df →
  columns df = all_columns listings ∧
  ("price" ∈ columns df ∧ "beds" ∈ columns df ∧ "baths" ∈ columns df) ∧
  ∀ r, r ∈ rows df →
    ∃ l, l ∈ listings ∧ r = row_of (all_columns listings) l ∧ passes prefs l.
Proof.
  unfold hard_filter. intros H.
  apply bind_Ok in H as (price & Hp & H).
  apply bind_Ok in H as (beds & Hb & H).
  apply bind_Ok in H as (baths & Hba & H).
  injection H as <-. split; [done|]. split.
  { apply getitem_Ok in Hp as [Hp _]. apply getitem_Ok in Hb as [Hb _].
    apply getitem_Ok in Hba as [Hba _]. done. }
  intros r (i & Hr & Hm)%elem_of_boolean_index.
  apply hard_mask_true in Hm as (p & b & ba & Hpi & Hbi & Hbai & ? & ? & ?).
  destruct (getitem_lookup _ _ _ _ _ Hp Hr) as (x1 & Hx1 & Hf1).
  destruct (getitem_lookup _ _ _ _ _ Hb Hr) as (x2 & Hx2 & Hf2).
  destruct (getitem_lookup _ _ _ _ _ Hba Hr) as (x3 & Hx3 & Hf3).
  simplify_eq.
  apply to_float_Fin, cell_VNum in Hf1, Hf2, Hf3.
  simpl in Hr. apply list_lookup_fmap_Some in Hr as (l & -> & Hl).
  exists l. split; [by eapply list_elem_of_lookup_2|].
  split; [done|]. exists p, b, ba.
  repeat split; try done; by eapply row_of_lookup_VNum.
Qed.

(** ** The ranked output *)

(** An output record: a row of the filtered frame with its score and its
    rank. *)
Definition scored_record (row : gmap string value) (score : Q) (rank : nat)
    : gmap string value :=
  <["rank" := rank_value rank]> (<["score" := VNum score]> row).

Definition decorated (df : DataFrame) (final : list Q) : list (gmap string value) :=
  let score := round2 <$> final in
  zip_with (λ r v, <["rank" := v]> r)
    (zip_with (λ r v, <["score" := v]> r) (rows df) (VNum <$> score))
    (rank_value <$> (rank_dense score <$> score)).

Lemma ranked_sorted df final : ranked df final = merge_sort by_score_desc (decorated df final).
Proof. reflexivity. Qed.

Lemma ranked_Permutation df final : ranked df final ≡ₚ decorated df final.
Proof. rewrite ranked_sorted. apply merge_sort_Permutation. Qed.

Lemma decorated_lookup df final i r :
  decorated df final !! i = Some r ↔
  ∃ row x, rows df !! i = Some row ∧ final !! i = Some x ∧
    r = scored_record row (round2 x) (rank_dense (round2 <$> final) (round2 x)).
Proof.
  unfold decorated, scored_record. rewrite lookup_zip_with_Some. split.
  - intros (r' & v & -> & H1 & H2).
    apply lookup_zip_with_Some in H1 as (row & v' & -> & Hrow & Hv').
    rewrite !list_lookup_fmap in H2. rewrite !list_lookup_fmap in Hv'.
    destruct (final !! i) as [x|]; simpl in *; [|done]. simplify_eq.
    by exists row, x.
  - intros (row & x & Hrow & Hx & ->).
    eexists _, _. split; [done|]. split.
    + apply lookup_zip_with_Some. eexists _, _. split; [done|]. split; [done|].
      by rewrite !list_lookup_fmap, Hx.
    + by rewrite !list_lookup_fmap, Hx.
Qed.

Lemma elem_of_ranked df final r :
  r ∈ ranked df final ↔
  ∃ i row x, rows df !! i = Some row ∧ final !! i = Some x ∧
    r = scored_record row (round2 x) (rank_dense (round2 <$> final) (round2 x)).
Proof.
  rewrite ranked_Permutation, list_elem_of_lookup.
  by setoid_rewrite decorated_lookup.
Qed.

(** The two ways in which [score_listings] returns. *)
Lemma score_listings_Ok listings prefs out :
  score_listings listings prefs = Ok out →
  (out = [] ∧
   (listings = [] ∨ ∃ df, hard_filter listings prefs = Ok df ∧ rows df = [])) ∨
  (∃ df sc, hard_filter listings prefs = Ok df ∧ rows df ≠ [] ∧
            scores df prefs = Ok sc ∧
            out = ranked df (final_scores (length (rows df)) (priorities prefs) sc)).
Proof.
  unfold score_listings. destruct listings as [|l0 ls].
  { intros [= <-]. left. auto. }
  intros (df & Hdf & H)%bind_Ok.
  destruct (rows df) as [|r0 rs] eqn:Hrows.
  { injection H as <-. left. split; [done|]. right. by exists df. }
  apply bind_Ok in H as (sc & Hsc & [= <-]).
  right. exists df, sc. rewrite Hrows. done.
Qed.

(** ** The sample of the source's own test block *)

Definition sample_listings : list listing :=
  [ list_to_map
      [("id", VStr "1"); ("address", VStr "123 Main St"); ("city", VStr "Austin");
       ("state", VStr "TX"); ("zip", VStr "78701"); ("price", VNum 400000);
       ("beds", VNum 3); ("baths", VNum 2); ("sqft", VNum 2000);
       ("year_built", VNum 2015); ("distance_to_downtown", VNum 5);
       ("lat", VNum (3027 # 100)); ("lon", VNum (-9774 # 100))];
    list_to_map
      [("id", VStr "2"); ("address", VStr "456 Oak Ave"); ("city", VStr "Austin");
       ("state", VStr "TX"); ("zip", VStr "78702"); ("price", VNum 350000);
       ("beds", VNum 4); ("baths", VNum (5 # 2)); ("sqft", VNum 2200);
       ("year_built", VNum 2018); ("distance_to_downtown", VNum 3);
       ("lat", VNum (3026 # 100)); ("lon", VNum (-9772 # 100))];
    list_to_map
      [("id", VStr "3"); ("address", VStr "789 Elm St"); ("city", VStr "Austin");
       ("state", VStr "TX"); ("zip", VStr "78703"); ("price", VNum 450000);
       ("beds", VNum 3); ("baths", VNum 2); ("sqft", VNum 1800);
       ("year_built", VNum 2010); ("distance_to_downtown", VNum 8);
       ("lat", VNum (3028 # 100)); ("lon", VNum (-9776 # 100))] ].

Definition sample_preferences : preferences :=
  {| max_price := Some 500000; min_beds := Some 3; min_baths := Some 2;
     priorities :=
       list_to_map [("price", 3 # 10); ("location", 25 # 100); ("size", 2 # 10);
                    ("bedrooms", 15 # 100); ("age", 1 # 10)] |}.

(** The records that the scorer returns on the sample. *)
Definition sample_scored : list (gmap string value) :=
  match score_listings sample_listings sample_preferences with
  | Ok out => out
  | Raise _ => []
  end.

Lemma sample_scored_eq :
  score_listings sample_listings sample_preferences = Ok sample_scored.
Proof. unfold sample_scored. apply Ok_match. vm_compute. reflexivity. Qed.

Example sample_ids_scores_ranks :
  (λ r, (r !! "id", r !! "score", r !! "rank")) <$> sample_scored =
  [ (Some (VStr "2"), Some (VNum (8500 # 100)), Some (VNum 1));
    (Some (VStr "1"), Some (VNum (4625 # 100)), Some (VNum 2));
    (Some (VStr "3"), Some (VNum (0 # 100)), Some (VNum 3)) ].
Proof. vm_compute. reflexivity. Qed.

(** ** C1: the hard requirements hold in the output *)



(** ** Dense ranks *)

Section rank.
Variable s : list Q.

(** The distinct values of [s] above [x], in lowest terms. *)
Definition above (x : Q) : list Q :=
  remove_dups (Qred <$> filter (λ y, x < y) s).

Lemma rank_dense_above x : rank_dense s x = S (length (above x)).
Proof. reflexivity. Qed.

Lemma elem_of_above x z :
  z ∈ above x ↔ ∃ y, y ∈ s ∧ x < y ∧ z = Qred y.
Proof.
  unfold above. rewrite elem_of_remove_dups, list_elem_of_fmap. split.
  - intros (y & -> & [? ?]%list_elem_of_filter). eauto.
  - intros (y & ? & ? & ->). exists y. split; [done|].
    by apply list_elem_of_filter.
Qed.

Lemma NoDup_above x : NoDup (above x).
Proof. apply NoDup_remove_dups. Qed.

Lemma Qred_eq_inv x y : Qred x = Qred y → x == y.
Proof. intros H. rewrite <- (Qred_correct x), <- (Qred_correct y), H. reflexivity. Qed.

(** Equal scores, equal ranks. *)
Lemma rank_dense_proper x x' : x == x' → rank_dense s x = rank_dense s x'.
Proof.
  intros E. unfold rank_dense.
  rewrite (list_filter_iff (λ y, x < y) (λ y, x' < y)); [done|].
  intros y. by rewrite E.
Qed.

(** A higher score has a rank at most as large ... *)
Lemma rank_dense_mono x y : x <= y → rank_dense s y ≤ rank_dense s x.
Proof.
  intros Hxy. rewrite !rank_dense_above. apply le_n_S, submseteq_length.
  apply NoDup_submseteq; [apply NoDup_above|].
  intros z (w & ? & ? & ->)%elem_of_above. apply elem_of_above.
  exists w. split; [done|]. split; [|done]. by eapply Qle_lt_trans.
Qed.

(** ... and a strictly higher score of [s] a strictly smaller one. *)
Lemma rank_dense_strict x y : y ∈ s → x < y → (rank_dense s y < rank_dense s x)%nat.
Proof.
  intros Hy Hxy. rewrite !rank_dense_above.
  assert (length (Qred y :: above y) ≤ length (above x)) as H; [|simpl in H; lia].
  apply submseteq_length, NoDup_submseteq.
  - apply NoDup_cons. split; [|apply NoDup_above].
    intros (w & _ & Hw & E%Qred_eq_inv)%elem_of_above.
    rewrite E in Hw. by apply Qlt_irrefl in Hw.
  - intros z [->|(w & ? & ? & ->)%elem_of_above]%elem_of_cons; apply elem_of_above.
    + by exists y.
    + exists w. split; [done|]. split; [|done]. by eapply Qlt_trans.
Qed.

(** A non-empty list of rationals has a least element. *)
Lemma Q_least (l : list Q) :
  l ≠ [] → ∃ y, y ∈ l ∧ ∀ z, z ∈ l → y <= z.
Proof.
  induction l as [|a l IH]; [done|]. intros _.
  destruct l as [|b l].
  { exists a. split; [left|]. intros z ->%list_elem_of_singleton. apply Qle_refl. }
  destruct IH as (y & Hy & Hmin); [done|].
  destruct (Qlt_le_dec a y) as [Hlt|Hle].
  - exists a. split; [left|]. intros z [->|Hz]%elem_of_cons; [apply Qle_refl|].
    apply Qlt_le_weak. eapply Qlt_le_trans; [done|]. by apply Hmin.
  - exists y. split; [by right|]. intros z [->|Hz]%elem_of_cons; [done|].
    by apply Hmin.
Qed.

(** No rank is skipped: below rank [r > 1] there is a value of [s] of rank
    [r - 1]. *)
Lemma rank_dense_pred x :
  (1 < rank_dense s x)%nat →
  ∃ y, y ∈ s ∧ x < y ∧ (rank_dense s y + 1)%nat = rank_dense s x.
Proof.
  intros Hr.
  destruct (Q_least (filter (λ y, x < y) s)) as (y & [Hxy Hy]%list_elem_of_filter & Hmin).
  { intros E. rewrite rank_dense_above in Hr. unfold above in Hr.
    rewrite E in Hr. simpl in Hr. lia. }
  exists y. split; [done|]. split; [done|].
  rewrite !rank_dense_above.
  assert (above x ≡ₚ Qred y :: above y) as ->; [|simpl; lia].
  apply NoDup_Permutation; [apply NoDup_above| |].
  - apply NoDup_cons. split; [|apply NoDup_above].
    intros (w & _ & Hw & E%Qred_eq_inv)%elem_of_above.
    rewrite E in Hw. by apply Qlt_irrefl in Hw.
  - intros z. rewrite elem_of_cons, !elem_of_above. split.
    + intros (w & Hw & Hxw & ->).
      assert (y <= w) as Hyw by (apply Hmin; by apply list_elem_of_filter).
      apply Qle_lt_or_eq in Hyw as [Hlt|Heq].
      * right. by exists w.
      * left. symmetry. by apply Qred_complete.
    + intros [->|(w & Hw & Hyw & ->)]; [by exists y|].
      exists w. split; [done|]. split; [|done]. by eapply Qlt_trans.
Qed.

(** Rank 1 is the rank of the largest value. *)
Lemma rank_dense_first x : rank_dense s x = 1%nat ↔ ∀ y, y ∈ s → y <= x.
Proof.
  rewrite rank_dense_above. split.
  - intros H y Hy. apply Qnot_lt_le. intros Hxy.
    assert (Qred y ∈ above x) as Hin by (apply elem_of_above; eauto).
    destruct (above x); [by apply elem_of_nil in Hin|simpl in H; lia].
  - intros H. destruct (above x) as [|z l] eqn:E; [done|].
    assert (z ∈ above x) as (y & Hy & Hxy & _)%elem_of_above by (rewrite E; left).
    apply H in Hy. exfalso. eapply Qlt_irrefl, Qlt_le_trans; eauto.
Qed.
End rank.

(** ** The frame of component scores *)

Lemma component_Ok df prio col key name f c :
  component df prio col key name f = Ok c →
  (active df prio col key = true ∧ ∃ s, getitem df col = Ok s ∧ c = [(name, f s)]) ∨
  (active df prio col key = false ∧ c = []).
Proof.
  unfold component. destruct (active df prio col key).
  - intros (s & Hs & [= <-])%bind_Ok. left. eauto.
  - intros [= <-]. by right.
Qed.

Lemma scores_Ok df prefs sc :
  scores df prefs = Ok sc →
  ∃ c1 c2 c3 c4 c5,
    component df (priorities prefs) "price" "price" "price_score"
      (λ price, inverted (_normalize price)) = Ok c1 ∧
    component df (priorities prefs) "distance_to_downtown" "location" "location_score"
      (λ dist, inverted (_normalize dist)) = Ok c2 ∧
    component df (priorities prefs) "sqft" "size" "size_score"
      (λ sqft, scaled (_normalize sqft)) = Ok c3 ∧
    component df (priorities prefs) "beds" "bedrooms" "bedroom_score"
      (λ beds, inverted (_normalize (bed_diff beds (target_beds prefs)))) = Ok c4 ∧
    component df (priorities prefs) "year_built" "age" "age_score"
      (λ year_built, inverted (_normalize (age year_built))) = Ok c5 ∧
    sc = c1 ++ c2 ++ c3 ++ c4 ++ c5.
Proof.
  unfold scores. intros H.
  apply bind_Ok in H as (c1 & H1 & H). apply bind_Ok in H as (c2 & H2 & H).
  apply bind_Ok in H as (c3 & H3 & H). apply bind_Ok in H as (c4 & H4 & H).
  apply bind_Ok in H as (c5 & H5 & [= <-]).
  by exists c1, c2, c3, c4, c5.
Qed.

Lemma normalize_length s : length (_normalize s) = length s.
Proof. unfold _normalize. destruct (_ || _); by rewrite length_fmap. Qed.

Lemma inverted_length s : length (inverted s) = length s.
Proof. apply length_fmap. Qed.

Lemma scaled_length s : length (scaled s) = length s.
Proof. apply length_fmap. Qed.

Lemma component_length df prio col key name f c :
  (∀ s, length (f s) = length s) →
  component df prio col key name f = Ok c →
  Forall (λ cs : string * Series, length cs.2 = length (rows df)) c.
Proof.
  intros Hf [(_ & s & Hs & ->)|(_ & ->)]%component_Ok; [|constructor].
  repeat constructor. simpl. rewrite Hf. by eapply getitem_length.
Qed.

Lemma scores_length df prefs sc :
  scores df prefs = Ok sc →
  Forall (λ cs : string * Series, length cs.2 = length (rows df)) sc.
Proof.
  intros (c1 & c2 & c3 & c4 & c5 & H1 & H2 & H3 & H4 & H5 & ->)%scores_Ok.
  repeat apply Forall_app_2; (eapply component_length; [|done]); intros s; simpl.
  - by rewrite inverted_length, normalize_length.
  - by rewrite inverted_length, normalize_length.
  - by rewrite scaled_length, normalize_length.
  - unfold bed_diff. by rewrite inverted_length, normalize_length, length_fmap.
  - unfold age. by rewrite inverted_length, normalize_length, length_fmap.
Qed.

Lemma final_scores_length n prio sc :
  Forall (λ cs : string * Series, length cs.2 = n) sc →
  length (final_scores n prio sc) = n.
Proof.
  unfold final_scores. generalize (length_replicate n (0 : Q)).
  generalize (replicate n (0 : Q)). intros acc Hacc H. revert acc Hacc.
  induction H as [|cs sc Hcs _ IH]; intros acc Hacc; simpl; [done|].
  apply IH. rewrite length_zip_with, length_fmap. lia.
Qed.

(** ** Scores and ranks of the output *)

Definition score_of (r : gmap string value) : Q :=
  match r !! "score" with
  | Some (VNum q) => q
  | _ => 0
  end.

Definition rank_of (r : gmap string value) : nat :=
  match r !! "rank" with
  | Some (VNum q) => Z.to_nat (Qfloor q)
  | _ => 0%nat
  end.

Lemma scored_record_score row s k : scored_record row s k !! "score" = Some (VNum s).
Proof. unfold scored_record. by rewrite lookup_insert_ne, lookup_insert_eq. Qed.

Lemma scored_record_rank row s k : scored_record row s k !! "rank" = Some (rank_value k).
Proof. unfold scored_record. by rewrite lookup_insert_eq. Qed.

Lemma score_of_scored_record row s k : score_of (scored_record row s k) = s.
Proof. unfold score_of. by rewrite scored_record_score. Qed.

Lemma rank_of_scored_record row s k : rank_of (scored_record row s k) = k.
Proof.
  unfold rank_of. rewrite scored_record_rank. unfold rank_value.
  by rewrite Qfloor_Z, Nat2Z.id.
Qed.

Lemma score_cell_scored_record row s k : score_cell (scored_record row s k) = Fin s.
Proof. unfold score_cell, cell. by rewrite scored_record_score. Qed.

#[global] Instance desc_trans : Transitive desc.
Proof.
  intros [|x] [|y] [|z]; simpl; try done.
  intros H1 H2. exact (Qle_trans _ _ _ H2 H1).
Qed.

#[global] Instance desc_total : Total desc.
Proof.
  intros [|x] [|y]; simpl; auto.
  destruct (Qlt_le_dec x y); [right; by apply Qlt_le_weak | by left].
Qed.

#[global] Instance by_score_desc_trans : Transitive by_score_desc.
Proof. intros r1 r2 r3. unfold by_score_desc. apply desc_trans. Qed.

#[global] Instance by_score_desc_total : Total by_score_desc.
Proof. intros r1 r2. unfold by_score_desc. apply desc_total. Qed.

Lemma StronglySorted_lookup {A} (R : relation A) (l : list A) i j x y :
  StronglySorted R l → (i < j)%nat → l !! i = Some x → l !! j = Some y → R x y.
Proof.
  intros Hs. revert i j. induction Hs as [|a l _ IH Hall]; intros i j Hij Hi Hj.
  { by rewrite lookup_nil in Hi. }
  destruct j as [|j]; [lia|]. simpl in Hj. destruct i as [|i]; simpl in Hi.
  - injection Hi as <-. rewrite Forall_forall in Hall. apply Hall.
    by eapply list_elem_of_lookup_2.
  - eapply IH; [|done..]. lia.
Qed.

(** The shape of the output: every record carries a score out of the list
    [S] of all the scores of the output and the dense rank of that score in
    [S], and the records are in the order of [sort_values]. *)
Lemma output_shape listings prefs out :
  score_listings listings prefs = Ok out →
  ∃ S : list Q,
    (∀ r, r ∈ out →
       r !! "score" = Some (VNum (score_of r)) ∧
       r !! "rank" = Some (rank_value (rank_of r)) ∧
       score_of r ∈ S ∧ rank_of r = rank_dense S (score_of r)) ∧
    (∀ x, x ∈ S → ∃ r, r ∈ out ∧ score_of r = x) ∧
    StronglySorted by_score_desc out.
Proof.
  intros [[-> _]|(df & sc & Hdf & _ & Hsc & ->)]%score_listings_Ok.
  { exists []. split; [by intros r ?%elem_of_nil|].
    split; [by intros x ?%elem_of_nil|constructor]. }
  set (final := final_scores _ _ _).
  assert (length final = length (rows df)) as Hlen.
  { apply final_scores_length. by eapply scores_length. }
  exists (round2 <$> final). split; [|split].
  - intros r (i & row & x & Hrow & Hx & ->)%elem_of_ranked.
    rewrite score_of_scored_record, rank_of_scored_record.
    rewrite scored_record_score, scored_record_rank.
    repeat split; try done.
    apply list_elem_of_fmap. exists x. split; [done|]. by eapply list_elem_of_lookup_2.
  - intros x' (x & -> & [i Hx]%list_elem_of_lookup)%list_elem_of_fmap.
    destruct (lookup_lt_is_Some_2 (rows df) i) as [row Hrow].
    { rewrite <- Hlen. by eapply lookup_lt_Some. }
    eexists. split; [apply elem_of_ranked; by exists i, row, x|].
    by rewrite score_of_scored_record.
  - rewrite ranked_sorted. apply StronglySorted_merge_sort; apply _.
Qed.

(** ** C3 and C4: dense ranks in descending order of score *)

(** The dense-rank law on a list of output records. *)
Definition dense_ranked (out : list (gmap string value)) : Prop :=
  (∀ r, r ∈ out →
     r !! "score" = Some (VNum (score_of r)) ∧
     r !! "rank" = Some (rank_value (rank_of r)) ∧ (1 ≤ rank_of r)%nat) ∧
  (∀ r1 r2, r1 ∈ out → r2 ∈ out →
     score_of r1 == score_of r2 → rank_of r1 = rank_of r2) ∧
  (∀ r, r ∈ out → (1 < rank_of r)%nat →
     ∃ r', r' ∈ out ∧ (rank_of r' + 1)%nat = rank_of r ∧ score_of r < score_of r') ∧
  (∀ r1 r2, r1 ∈ out → r2 ∈ out → score_of r2 < score_of r1 →
     (∀ r3, r3 ∈ out → ¬ (score_of r2 < score_of r3 ∧ score_of r3 < score_of r1)) →
     rank_of r2 = (rank_of r1 + 1)%nat) ∧
  (∀ r, r ∈ out →
     rank_of r = 1%nat ↔ ∀ r', r' ∈ out → score_of r' <= score_of r).

(** C3.  In every output of [score_listings] two records of equal score
    have equal rank; a record of rank [r > 1] comes with a record of rank
    [r - 1] and strictly greater score; the next distinct lower score has the
    previous rank plus one; and rank 1 belongs to the records of the highest
    score. *)
Theorem score_listings_dense_rank listings prefs out :
  score_listings listings prefs = Ok out → dense_ranked out.
Proof.
  intros (S & Hout & HS & _)%output_shape.
  assert (∀ r1 r2, r1 ∈ out → r2 ∈ out → score_of r2 < score_of r1 →
            (rank_of r1 < rank_of r2)%nat) as Hstrict.
  { intros r1 r2 (_ & _ & Hs1 & ->)%Hout (_ & _ & _ & ->)%Hout Hlt.
    by apply rank_dense_strict. }
  assert (∀ r, r ∈ out → (1 < rank_of r)%nat →
     ∃ r', r' ∈ out ∧ (rank_of r' + 1)%nat = rank_of r ∧ score_of r < score_of r')
    as Hpred.
  { intros r Hr Hgt. destruct (Hout r Hr) as (_ & _ & _ & Hrank).
    rewrite Hrank in Hgt.
    apply rank_dense_pred in Hgt as (y & (r' & Hr' & <-)%HS & Hlt & Hy).
    exists r'. split; [done|]. split; [|done].
    destruct (Hout r' Hr') as (_ & _ & _ & ->). by rewrite Hrank. }
  assert (∀ r, r ∈ out → (1 ≤ rank_of r)%nat) as Hpos.
  { intros r (_ & _ & _ & ->)%Hout. rewrite rank_dense_above. lia. }
  repeat split.
  - by apply Hout.
  - by apply Hout.
  - by apply Hpos.
  - intros r1 r2 (_ & _ & _ & ->)%Hout (_ & _ & _ & ->)%Hout E.
    by apply rank_dense_proper.
  - done.
  - intros r1 r2 H1 H2 Hlt Hnone.
    pose proof (Hstrict r1 r2 H1 H2 Hlt) as Hr.
    pose proof (Hpos r1 H1) as Hp1.
    destruct (Hpred r2 H2) as (r' & Hr' & Hrank & Hlt'); [lia|].
    destruct (decide (rank_of r' ≤ rank_of r1)%nat) as [|Hn]; [lia|].
    exfalso. apply (Hnone r' Hr'). split; [done|].
    apply Qnot_le_lt. intros Hle.
    apply Qle_lt_or_eq in Hle as [Hlt1|Heq].
    + pose proof (Hstrict r' r1 Hr' H1 Hlt1). lia.
    + destruct (Hout r1 H1) as (_ & _ & _ & E1).
      destruct (Hout r' Hr') as (_ & _ & _ & E').
      rewrite (rank_dense_proper S _ _ Heq) in E1. lia.
  - intros Hone r' Hr'. destruct (Hout r H) as (_ & _ & _ & Hrank).
    rewrite Hrank in Hone. apply (proj1 (rank_dense_first S _) Hone).
    by apply Hout.
  - intros Hmax. destruct (Hout r H) as (_ & _ & _ & ->).
    apply rank_dense_first. intros y (r' & Hr' & <-)%HS. by apply Hmax.
Qed.

Lemma score_listings_dense_rank_witness : dense_ranked sample_scored.
Proof.
  apply (score_listings_dense_rank sample_listings sample_preferences).
  unfold sample_scored. apply Ok_match. vm_compute. reflexivity.
Defined.

(** A list of output records in descending order of score, with ranks that
    do not decrease. *)
Definition descending (out : list (gmap string value)) : Prop :=
  ∀ i j ri rj, (i < j)%nat → out !! i = Some ri → out !! j = Some rj →
    score_of rj <= score_of ri ∧ (rank_of ri ≤ rank_of rj)%nat.

(** C4.  Every output of [score_listings] is sorted by descending score and
    its ranks do not decrease along the sequence. *)
Theorem score_listings_descending listings prefs out :
  score_listings listings prefs = Ok out → descending out.
Proof.
  intros (S & Hout & _ & Hsorted)%output_shape i j ri rj Hij Hi Hj.
  pose proof (StronglySorted_lookup _ _ _ _ _ _ Hsorted Hij Hi Hj) as Hd.
  apply list_elem_of_lookup_2 in Hi, Hj.
  destruct (Hout ri Hi) as (Hsi & _ & _ & ->).
  destruct (Hout rj Hj) as (Hsj & _ & _ & ->).
  unfold by_score_desc, score_cell, cell in Hd. rewrite Hsi, Hsj in Hd. simpl in Hd.
  split; [done|]. by apply rank_dense_mono.
Qed.

Lemma score_listings_descending_witness : descending sample_scored.
Proof.
  apply (score_listings_descending sample_listings sample_preferences).
  unfold sample_scored. apply Ok_match. vm_compute. reflexivity.
Defined.

(** ** Sums, least and greatest values *)

Lemma Qsq_nonneg (a : Q) : 0 <= a * a.
Proof.
  destruct (Qlt_le_dec a 0) as [Hlt|Hle].
  - assert (a * a == (- a) * (- a)) as -> by ring.
    apply Qmult_le_0_compat; lra.
  - by apply Qmult_le_0_compat.
Qed.

Lemma Qsq_zero (a : Q) : a * a == 0 → a == 0.
Proof. intros [H|H]%Qmult_integral; done. Qed.

Lemma Qsum_cons (x : Q) (l : list Q) : Qsum (x :: l) = x + Qsum l.
Proof. reflexivity. Qed.

Lemma Qsum_nonneg (l : list Q) : (∀ x, x ∈ l → 0 <= x) → 0 <= Qsum l.
Proof.
  induction l as [|a l IH]; intros H; [apply Qle_refl|].
  rewrite Qsum_cons.
  assert (0 <= a) by (apply H; left).
  assert (0 <= Qsum l) by (apply IH; intros x ?; apply H; by right). lra.
Qed.

Lemma Qsum_all_zero (l : list Q) : (∀ x, x ∈ l → x == 0) → Qsum l == 0.
Proof.
  induction l as [|a l IH]; intros H; [reflexivity|].
  rewrite Qsum_cons.
  assert (a == 0) by (apply H; left).
  assert (Qsum l == 0) by (apply IH; intros x ?; apply H; by right). lra.
Qed.

Lemma Qsum_zero_inv (l : list Q) :
  (∀ x, x ∈ l → 0 <= x) → Qsum l == 0 → ∀ x, x ∈ l → x == 0.
Proof.
  induction l as [|a l IH]; intros Hpos Hsum x Hx; [by apply elem_of_nil in Hx|].
  rewrite Qsum_cons in Hsum.
  assert (0 <= a) by (apply Hpos; left).
  assert (0 <= Qsum l) by (apply Qsum_nonneg; intros y ?; apply Hpos; by right).
  apply elem_of_cons in Hx as [->|Hx]; [lra|].
  apply IH; [|lra|done]. intros y ?. apply Hpos. by right.
Qed.

Lemma inject_Z_S (n : nat) : inject_Z (Z.of_nat (S n)) == inject_Z (Z.of_nat n) + 1.
Proof. rewrite Nat2Z.inj_succ. unfold Z.succ. by rewrite inject_Z_plus. Qed.

Lemma inject_Z_nat_pos (n : nat) : (0 < n)%nat → 0 < inject_Z (Z.of_nat n).
Proof.
  intros H. change 0 with (inject_Z 0). rewrite <- Zlt_Qlt. lia.
Qed.

Lemma Qsum_const (c : Q) (l : list Q) :
  (∀ x, x ∈ l → x == c) → Qsum l == c * inject_Z (Z.of_nat (length l)).
Proof.
  induction l as [|a l IH]; intros H.
  { simpl. unfold Qsum. simpl. ring. }
  rewrite Qsum_cons. simpl length. rewrite inject_Z_S.
  assert (a == c) as -> by (apply H; left).
  rewrite IH by (intros x ?; apply H; by right). ring.
Qed.

Lemma mean_const (c : Q) (l : list Q) :
  l ≠ [] → (∀ x, x ∈ l → x == c) → mean l == c.
Proof.
  intros Hne H. unfold mean. rewrite Qsum_const by done.
  assert (0 < inject_Z (Z.of_nat (length l))).
  { apply inject_Z_nat_pos. destruct l; [done|simpl; lia]. }
  field. lra.
Qed.

(** A least and a greatest value of a list. *)
Definition least (m : Q) (l : list Q) : Prop :=
  (∃ x, x ∈ l ∧ x == m) ∧ ∀ x, x ∈ l → m <= x.
Definition greatest (m : Q) (l : list Q) : Prop :=
  (∃ x, x ∈ l ∧ x == m) ∧ ∀ x, x ∈ l → x <= m.

Lemma least_Qeq (m m' : Q) (l : list Q) : m == m' → least m l → least m' l.
Proof.
  intros E [(x & Hx & Ex) Hle]. split.
  - exists x. split; [done|]. by rewrite Ex.
  - intros y Hy. rewrite <- E. by apply Hle.
Qed.

Lemma greatest_Qeq (m m' : Q) (l : list Q) : m == m' → greatest m l → greatest m' l.
Proof.
  intros E [(x & Hx & Ex) Hle]. split.
  - exists x. split; [done|]. by rewrite Ex.
  - intros y Hy. rewrite <- E. by apply Hle.
Qed.

Lemma foldr_Qmin_least (a : Q) (l : list Q) : least (foldr Qmin a l) (a :: l).
Proof.
  induction l as [|b l [(x & Hx & Ex) Hle]]; simpl.
  { split; [exists a; split; [left|reflexivity]|].
    intros x ->%list_elem_of_singleton. apply Qle_refl. }
  destruct (Q.min_spec b (foldr Qmin a l)) as [[Hlt E]|[Hge E]];
    symmetry in E; apply (least_Qeq _ _ _ E); split.
  - exists b. split; [right; left|reflexivity].
  - intros y [->|[->|Hy]%elem_of_cons]%elem_of_cons.
    + apply Qlt_le_weak. eapply Qlt_le_trans; [done|]. apply Hle. left.
    + apply Qle_refl.
    + apply Qlt_le_weak. eapply Qlt_le_trans; [done|]. apply Hle. by right.
  - exists x. split; [|done].
    apply elem_of_cons in Hx as [->|Hx]; [left|right; by right].
  - intros y [->|[->|Hy]%elem_of_cons]%elem_of_cons.
    + apply Hle. left.
    + done.
    + apply Hle. by right.
Qed.

Lemma foldr_Qmax_greatest (a : Q) (l : list Q) : greatest (foldr Qmax a l) (a :: l).
Proof.
  induction l as [|b l [(x & Hx & Ex) Hle]]; simpl.
  { split; [exists a; split; [left|reflexivity]|].
    intros x ->%list_elem_of_singleton. apply Qle_refl. }
  destruct (Q.max_spec b (foldr Qmax a l)) as [[Hlt E]|[Hge E]];
    symmetry in E; apply (greatest_Qeq _ _ _ E); split.
  - exists x. split; [|done].
    apply elem_of_cons in Hx as [->|Hx]; [left|right; by right].
  - intros y [->|[->|Hy]%elem_of_cons]%elem_of_cons.
    + apply Hle. left.
    + by apply Qlt_le_weak.
    + apply Hle. by right.
  - exists b. split; [right; left|reflexivity].
  - intros y [->|[->|Hy]%elem_of_cons]%elem_of_cons.
    + eapply Qle_trans; [|done]. apply Hle. left.
    + apply Qle_refl.
    + eapply Qle_trans; [|done]. apply Hle. by right.
Qed.

Lemma Qmin_list_least (l : list Q) :
  l ≠ [] → ∃ m, Qmin_list l = Fin m ∧ least m l.
Proof.
  destruct l as [|a l]; [done|]. intros _. eexists. split; [done|].
  apply foldr_Qmin_least.
Qed.

Lemma Qmax_list_greatest (l : list Q) :
  l ≠ [] → ∃ m, Qmax_list l = Fin m ∧ greatest m l.
Proof.
  destruct l as [|a l]; [done|]. intros _. eexists. split; [done|].
  apply foldr_Qmax_greatest.
Qed.

(** ** Normalization *)

(** All the values of a list are the same number. *)
Definition constant (l : list Q) : Prop := ∀ x y, x ∈ l → y ∈ l → x == y.

Lemma elem_of_present (s : Series) (x : Q) : x ∈ present s ↔ Fin x ∈ s.
Proof.
  induction s as [|[|y] s IH]; simpl.
  - split; intros H; by apply elem_of_nil in H.
  - rewrite IH, elem_of_cons. split; [by right|]. by intros [?|?].
  - rewrite !elem_of_cons, IH. split; intros [E|?]; auto; left; congruence.
Qed.

(** [series.std() == 0] holds exactly when at least two values are present
    and all of them are the same. *)
Lemma std_is_zero_iff (s : Series) :
  std_is_zero s = true ↔ (2 ≤ length (present s))%nat ∧ constant (present s).
Proof.
  unfold std_is_zero, series_var. set (l := present s).
  destruct (decide (length l ≤ 1)%nat) as [Hle|Hgt].
  { split; [done|]. intros [? _]. lia. }
  assert (0 < inject_Z (Z.of_nat (length l - 1))) as Hd.
  { apply inject_Z_nat_pos. lia. }
  set (m := mean l). set (sq := (λ x, (x - m) * (x - m)) <$> l).
  rewrite Qeq_bool_iff. split.
  - intros Hv. split; [lia|].
    assert (Qsum sq == 0) as Hsum.
    { assert (Qsum sq == (Qsum sq / inject_Z (Z.of_nat (length l - 1)))
                          * inject_Z (Z.of_nat (length l - 1))) as -> by (field; lra).
      rewrite Hv. ring. }
    assert (∀ x, x ∈ l → x == m) as Hall.
    { intros x Hx.
      assert ((x - m) * (x - m) == 0) as Hz%Qsq_zero; [|lra].
      apply (Qsum_zero_inv sq); [|done|].
      - intros y (z & -> & _)%list_elem_of_fmap. apply Qsq_nonneg.
      - apply list_elem_of_fmap. by exists x. }
    intros x y Hx Hy. by rewrite (Hall x), (Hall y).
  - intros [_ Hc].
    assert (∃ c, c ∈ l) as [c Hc0].
    { destruct l as [|c l']; [simpl in Hgt; lia|]. exists c. left. }
    assert (∀ x, x ∈ l → x == c) as Hall by (intros x Hx; by apply Hc).
    assert (m == c) as Hm.
    { apply mean_const; [|done]. intros E. rewrite E in Hc0. by apply elem_of_nil in Hc0. }
    assert (Qsum sq == 0) as ->; [|field; lra].
    apply Qsum_all_zero. intros y (x & -> & Hx)%list_elem_of_fmap.
    rewrite (Hall x Hx), Hm. ring.
Qed.


Lemma normalize_constant (s : Series) :
  std_is_zero s = true → _normalize s = (λ _, Fin 0) <$> s.
Proof. intros H. unfold _normalize. by rewrite H. Qed.

Lemma normalize_general (s : Series) i x :
  std_is_zero s = false → s !! i = Some x →
  _normalize s !! i =
  Some (num_div (num_sub x (series_min s)) (num_sub (series_max s) (series_min s))).
Proof.
  intros H Hx. unfold _normalize. rewrite H.
  assert ((length s =? 0)%nat = false) as -> by (destruct s; [by destruct i|done]).
  simpl. by rewrite list_lookup_fmap, Hx.
Qed.

(** The cell of a listing without the attribute stays NaN when the general
    formula applies. *)
Lemma normalize_NaN (s : Series) i :
  std_is_zero s = false → s !! i = Some NaN → _normalize s !! i = Some NaN.
Proof. intros H Hx. by rewrite (normalize_general s i NaN). Qed.

Lemma series_min_least (s : Series) :
  present s ≠ [] → ∃ lo, series_min s = Fin lo ∧ least lo (present s).
Proof. apply Qmin_list_least. Qed.

Lemma series_max_greatest (s : Series) :
  present s ≠ [] → ∃ hi, series_max s = Fin hi ∧ greatest hi (present s).
Proof. apply Qmax_list_greatest. Qed.



(** The division of [_normalize] is either [0 / 0] or a division by a range
    that is not zero: when the range of a series is zero, every numerator is
    zero, so no infinity arises. *)
Lemma normalize_zero_range (s : Series) (a lo hi : Q) :
  Fin a ∈ s → series_min s = Fin lo → series_max s = Fin hi →
  hi - lo == 0 → a - lo == 0.
Proof.
  intros Ha%elem_of_present Hlo Hhi E.
  assert (present s ≠ []) as Hne by (intros E'; rewrite E' in Ha; by apply elem_of_nil in Ha).
  destruct (series_min_least s Hne) as (lo' & Hlo' & [_ Hmin]).
  destruct (series_max_greatest s Hne) as (hi' & Hhi' & [_ Hmax]).
  assert (lo' = lo) as -> by congruence. assert (hi' = hi) as -> by congruence.
  pose proof (Hmin a Ha). pose proof (Hmax a Ha). lra.
Qed.

(** ** The columns of [scores] *)

Lemma elem_of_component df prio col key name f c n series :
  component df prio col key name f = Ok c → (n, series) ∈ c →
  n = name ∧ active df prio col key = true ∧
  ∃ s, getitem df col = Ok s ∧ series = f s.
Proof.
  intros [(Ha & s & Hs & ->)|(_ & ->)]%component_Ok Hin.
  - apply list_elem_of_singleton in Hin as [= -> ->]. eauto.
  - by apply elem_of_nil in Hin.
Qed.


(** Each column of [scores] is the column of one active criterion. *)
Lemma scores_elem_of df prefs sc n series :
  scores df prefs = Ok sc → (n, series) ∈ sc →
  (n = "price_score" ∧ active df (priorities prefs) "price" "price" = true ∧
     ∃ s, getitem df "price" = Ok s ∧ series = inverted (_normalize s)) ∨
  (n = "location_score" ∧
     active df (priorities prefs) "distance_to_downtown" "location" = true ∧
     ∃ s, getitem df "distance_to_downtown" = Ok s ∧
          series = inverted (_normalize s)) ∨
  (n = "size_score" ∧ active df (priorities prefs) "sqft" "size" = true ∧
     ∃ s, getitem df "sqft" = Ok s ∧ series = scaled (_normalize s)) ∨
  (n = "bedroom_score" ∧ active df (priorities prefs) "beds" "bedrooms" = true ∧
     ∃ s, getitem df "beds" = Ok s ∧
          series = inverted (_normalize (bed_diff s (target_beds prefs)))) ∨
  (n = "age_score" ∧ active df (priorities prefs) "year_built" "age" = true ∧
     ∃ s, getitem df "year_built" = Ok s ∧
          series = inverted (_normalize (age s))).
Proof.
  intros (c1 & c2 & c3 & c4 & c5 & H1 & H2 & H3 & H4 & H5 & ->)%scores_Ok Hin.
  rewrite !elem_of_app in Hin.
  destruct Hin as [Hin|[Hin|[Hin|[Hin|Hin]]]].
  - left. eapply elem_of_component in Hin; [|exact H1]. done.
  - right; left. eapply elem_of_component in Hin; [|exact H2]. done.
  - do 2 right; left. eapply elem_of_component in Hin; [|exact H3]. done.
  - do 3 right; left. eapply elem_of_component in Hin; [|exact H4]. done.
  - do 4 right. eapply elem_of_component in Hin; [|exact H5]. done.
Qed.



(** ** The range of the numbers *)

(** The numbers on which the exact arithmetic of the model stands for the
    arithmetic of the source: at most 2^53 in absolute value, where an int64
    column does not wrap around and every integer is a float64, and zero or
    at least 2^-53, where the squares that [std] takes do not underflow. *)
Definition moderate (q : Q) : Prop :=
  Qabs q <= 9007199254740992 ∧
  (Qabs q <= 0 ∨ 1 # 9007199254740992 <= Qabs q).

#[global] Instance moderate_dec q : Decision (moderate q).
Proof. unfold moderate. apply _. Defined.

(** ** C5: the component of a listing without the attribute *)

(** A listing dict with an id and numeric attributes. *)
Definition numeric_listing (id : string) (fields : list (string * Q)) : listing :=
  list_to_map (("id", VStr id) :: (prod_map (λ k, k) VNum <$> fields)).

(** Preferences without hard requirements. *)
Definition only_priorities (prio : list (string * Q)) : preferences :=
  {| max_price := None; min_beds := None; min_baths := None;
     priorities := list_to_map prio |}.

(** The frame after the hard requirements, or an empty frame when the
    filter raises. *)
Definition filtered (listings : list listing) (prefs : preferences) : DataFrame :=
  match hard_filter listings prefs with
  | Ok df => df
  | Raise _ => {| columns := ∅; rows := [] |}
  end.

Definition year_gap_listings : list listing :=
  [ numeric_listing "1" [("price", 300000); ("beds", 3); ("baths", 2);
                         ("year_built", 2000)];
    numeric_listing "2" [("price", 310000); ("beds", 3); ("baths", 2)] ].

(** The frame of component scores [sc] with the entry of row [i] of the
    column [name] set to [x]. *)
Definition with_component (name : string) (i : nat) (x : num)
    (sc : list (string * Series)) : list (string * Series) :=
  (λ cs : string * Series,
     if decide (cs.1 = name) then (cs.1, <[i := x]> cs.2) else cs) <$> sc.








Definition sqft_gap_listings : list listing :=
  [ numeric_listing "1" [("price", 300000); ("beds", 3); ("baths", 2);
                         ("sqft", 1500); ("year_built", 1990)];
    numeric_listing "2" [("price", 310000); ("beds", 4); ("baths", 2)];
    numeric_listing "3" [("price", 320000); ("beds", 3); ("baths", 2);
                         ("sqft", 2500); ("year_built", 2010)] ].

Definition sqft_gap_scores : list (string * Series) :=
  match scores (filtered sqft_gap_listings (only_priorities [("size", 1); ("age", 1)]))
               (only_priorities [("size", 1); ("age", 1)]) with
  | Ok sc => sc
  | Raise _ => []
  end.


Example sqft_gap_scores_eq :
  sqft_gap_scores =
  [ ("size_score", [Fin ((1500 - 1500) / (2500 - 1500) * 100); NaN;
                    Fin ((2500 - 1500) / (2500 - 1500) * 100)]);
    ("age_score", [Fin (100 - (34 - 14) / (124 - 14) * 100);
                   Fin (100 - (124 - 14) / (124 - 14) * 100);
                   Fin (100 - (14 - 14) / (124 - 14) * 100)]) ].
Proof. vm_compute. reflexivity. Qed.

(** For the listing without ["sqft"] of [sqft_gap_listings], the rule gives
    the weighted sums with 50 in the place of the missing size component. *)
Example sqft_gap_final_scores :
  let prefs := only_priorities [("size", 1); ("age", 1)] in
  final_scores 3 (priorities prefs) sqft_gap_scores
  = final_scores 3 (priorities prefs)
      (with_component "size_score" 1 (Fin 50) sqft_gap_scores) ∧
  Qred <$> final_scores 3 (priorities prefs) sqft_gap_scores
  = Qred <$> [0 + (100 - 20 / 110 * 100); 50 + 0; 100 + 100].
Proof. split; vm_compute; reflexivity. Qed.

(** ** C2 and C8: when the scorer returns and when it raises *)

(** The columns that the scorer reads as numbers. *)
Definition numeric_columns : list string :=
  ["price"; "beds"; "baths"; "sqft"; "year_built"; "distance_to_downtown"].

(** Well-formed input: no numeric column holds a string. *)
Definition well_formed (listings : list listing) : Prop :=
  ∀ l c s, l ∈ listings → c ∈ numeric_columns → l !! c ≠ Some (VStr s).

Definition numeric_rows (df : DataFrame) : Prop :=
  ∀ r c s, r ∈ rows df → c ∈ numeric_columns → cell r c ≠ VStr s.

Lemma getitem_is_Ok (df : DataFrame) (c : string) :
  c ∈ columns df → (∀ r s, r ∈ rows df → cell r c ≠ VStr s) →
  ∃ s, getitem df c = Ok s.
Proof.
  intros Hc Hrows. unfold getitem. rewrite decide_True by done.
  apply mapM_is_Ok, Forall_forall. intros r Hr.
  destruct (cell r c) as [q| |s] eqn:E; simpl; eauto.
  by destruct (Hrows r s Hr).
Qed.

Lemma getitem_KeyError (df : DataFrame) (c : string) :
  c ∉ columns df → getitem df c = Raise (KeyError c).
Proof. intros H. unfold getitem. by rewrite decide_False. Qed.

Lemma cell_row_of_not_str cols (l : listing) c s :
  l !! c ≠ Some (VStr s) → cell (row_of cols l) c ≠ VStr s.
Proof.
  intros Hl E. unfold cell, row_of in E.
  destruct ((l ∪ gset_to_gmap VNaN cols) !! c) as [v|] eqn:Hv; [|done].
  simpl in E. subst v.
  apply lookup_union_Some_raw in Hv as [?|[_ Hv]]; [done|].
  by apply lookup_gset_to_gmap_Some in Hv as [_ ?].
Qed.

Lemma pd_DataFrame_numeric listings :
  well_formed listings → numeric_rows (pd_DataFrame listings).
Proof.
  intros Hwf r c s (l & -> & Hl)%list_elem_of_fmap Hc.
  apply cell_row_of_not_str. by eapply Hwf.
Qed.






(** When no listing of a non-empty input carries a price, the scorer raises
    [KeyError]. *)
Lemma score_listings_KeyError_price l ls prefs :
  "price" ∉ all_columns (l :: ls) →
  score_listings (l :: ls) prefs = Raise (KeyError "price").
Proof.
  intros H. unfold score_listings, hard_filter.
  rewrite (getitem_KeyError _ "price") by exact H. reflexivity.
Qed.

Lemma score_listings_nil prefs : score_listings [] prefs = Ok [].
Proof. reflexivity. Qed.


Definition no_price_listings : list listing :=
  [ numeric_listing "1" [("beds", 3); ("baths", 2); ("sqft", 1500)];
    numeric_listing "2" [("beds", 4); ("baths", 3)] ].

(** C2 (code defect).  On well-formed listings none of which carries a
    price, [score_listings] raises [KeyError] instead of returning. *)
Theorem score_listings_raises_without_price :
  well_formed no_price_listings ∧
  score_listings no_price_listings sample_preferences = Raise (KeyError "price").
Proof.
  split; [|by vm_compute].
  intros l c s Hl Hc.
  assert (Forall (λ l : listing,
            Forall (λ c, ∀ s, l !! c ≠ Some (VStr s)) numeric_columns)
            no_price_listings) as Hall.
  { repeat apply Forall_cons_2; try apply Forall_nil_2;
      intros s' E; vm_compute in E; discriminate. }
  rewrite Forall_forall in Hall. specialize (Hall l Hl).
  rewrite Forall_forall in Hall. by apply Hall.
Qed.

Definition no_baths_listings : list listing :=
  [ numeric_listing "1" [("price", 400000); ("beds", 3)] ].

Definition negative_max_price : preferences :=
  {| max_price := Some (-1); min_beds := None; min_baths := None; priorities := ∅ |}.

(** C8 (code defect).  No listing of [no_baths_listings] passes the hard
    requirements (the price is above the bound and the baths are missing),
    and [score_listings] raises [KeyError] instead of returning the empty
    sequence. *)
Theorem score_listings_raises_when_none_passes :
  (∀ l, l ∈ no_baths_listings → ¬ passes negative_max_price l) ∧
  score_listings no_baths_listings negative_max_price = Raise (KeyError "baths").
Proof.
  split; [|by vm_compute].
  intros l ->%list_elem_of_singleton (p & b & ba & _ & _ & Hba & _).
  vm_compute in Hba. discriminate.
Qed.

(** ** C6: degenerate normalization *)

Lemma length_boolean_index df mask :
  (length (rows (boolean_index df mask)) ≤ length (rows df))%nat.
Proof.
  unfold boolean_index; simpl. rewrite length_fmap.
  etransitivity; [apply length_filter|]. rewrite length_zip_with. lia.
Qed.

Lemma hard_filter_length listings prefs df :
  hard_filter listings prefs = Ok df → (length (rows df) ≤ length listings)%nat.
Proof.
  unfold hard_filter. intros H.
  apply bind_Ok in H as (price & Hp & H). apply bind_Ok in H as (beds & Hb & H).
  apply bind_Ok in H as (baths & Hba & [= <-]).
  etransitivity; [apply length_boolean_index|]. simpl. by rewrite length_fmap.
Qed.

Lemma ranked_length df final : (length (ranked df final) ≤ length (rows df))%nat.
Proof.
  rewrite (Permutation_length (ranked_Permutation df final)).
  unfold decorated. rewrite !length_zip_with. lia.
Qed.

(** Rank 1 is the rank of the records of the highest score. *)
Lemma output_rank_first listings prefs out r :
  score_listings listings prefs = Ok out → r ∈ out →
  rank_of r = 1%nat ↔ ∀ r', r' ∈ out → score_of r' <= score_of r.
Proof.
  intros (S & Hout & HS & _)%output_shape Hr.
  destruct (Hout r Hr) as (_ & _ & _ & ->). rewrite rank_dense_first. split.
  - intros H r' Hr'. apply H. by apply Hout.
  - intros H y (r' & Hr' & <-)%HS. by apply H.
Qed.

(** A single-listing input: the listing, when it is returned, has rank 1. *)
Lemma single_listing_rank_one (l : listing) prefs out r :
  score_listings [l] prefs = Ok out → r ∈ out → rank_of r = 1%nat.
Proof.
  intros Hout Hr.
  apply (output_rank_first _ _ _ _ Hout Hr). intros r' Hr'.
  assert (length out ≤ 1)%nat as Hlen.
  { apply score_listings_Ok in Hout as [[-> _]|(df & sc & Hdf & _ & _ & ->)]; [simpl; lia|].
    etransitivity; [apply ranked_length|]. by apply hard_filter_length in Hdf. }
  destruct out as [|r0 [|r1 out]]; [by apply elem_of_nil in Hr| |simpl in Hlen; lia].
  apply list_elem_of_singleton in Hr as ->. apply list_elem_of_singleton in Hr' as ->.
  apply Qle_refl.
Qed.

Definition single_listing : list listing :=
  [ numeric_listing "1" [("price", 400000); ("beds", 3); ("baths", 2); ("sqft", 2000)] ].

(** C6 (code defect).  On a filtered set of one listing the price component
    is not the value [100 - 0 * 100] that the formula gives for a normalized
    value of 0: [std()] of a single value is NaN, the guard of [_normalize]
    does not fire, the division is [0 / 0], and the weighted sum uses the
    fallback 50, so the score is 50 and not 100. *)
Theorem single_listing_component :
  let prefs := only_priorities [("price", 1)] in
  let df := filtered single_listing prefs in
  hard_filter single_listing prefs = Ok df ∧
  length (rows df) = 1%nat ∧
  getitem df "price" = Ok [Fin 400000] ∧
  std_is_zero [Fin 400000] = false ∧
  _normalize [Fin 400000] = [NaN] ∧
  scores df prefs = Ok [("price_score", [NaN])] ∧
  inverted [Fin 0] = [Fin (100 - 0 * 100)] ∧
  final_scores 1 (priorities prefs) [("price_score", [NaN])] = [0 + 50 * 1] ∧
  score_listings single_listing prefs =
    Ok [ list_to_map
           [("id", VStr "1"); ("price", VNum 400000); ("beds", VNum 3);
            ("baths", VNum 2); ("sqft", VNum 2000);
            ("score", VNum (5000 # 100)); ("rank", VNum 1)] ].
Proof. repeat split; vm_compute; reflexivity. Qed.

(** ** C7: the bedroom component *)

Lemma Qlt_bool_iff (x y : Q) : Qlt_bool x y = true ↔ x < y.
Proof.
  unfold Qlt_bool. rewrite negb_true_iff. split.
  - intros H. apply Qnot_le_lt. intros Hle%Qle_bool_iff. congruence.
  - intros H. destruct (Qle_bool y x) eqn:E; [|done].
    apply Qle_bool_iff in E. exfalso. by apply (Qlt_not_le x y).
Qed.


Lemma active_weight df prio col key :
  active df prio col key = true → 0 < get_weight prio key.
Proof. unfold active. intros [_ H]%andb_true_iff. by apply Qlt_bool_iff. Qed.





(** The rows of the filtered frame carry their number of beds. *)
Lemma hard_filter_beds listings prefs df row :
  hard_filter listings prefs = Ok df → row ∈ rows df →
  ∃ b, row !! "beds" = Some (VNum b).
Proof.
  intros (_ & _ & H)%hard_filter_Ok Hr.
  destruct (H row Hr) as (l & _ & -> & p & b & ba & _ & Hb & _).
  exists b. by apply row_of_lookup_Some.
Qed.

Lemma cell_lookup (r : gmap string value) c v : r !! c = Some v → cell r c = v.
Proof. unfold cell. by intros ->. Qed.








(** ** C9: what the output records carry *)

(** The claim as stated: an output record is an input listing with the two
    keys ["score"] and ["rank"] set, and nothing else. *)
Definition augmented_only (listings : list listing)
    (out : list (gmap string value)) : Prop :=
  ∀ r, r ∈ out →
    ∃ l s k, l ∈ listings ∧ r = <["rank" := k]> (<["score" := s]> l).

(** The values that a column of pandas returns as they were put in: strings,
    NaN, and numbers of at most 2^53 in absolute value (a greater integer is
    rounded when its column is a float64 column). *)
Definition exact_in_float64 (v : value) : Prop :=
  match v with
  | VNum q => Qabs q <= 9007199254740992
  | _ => True
  end.

(** What the scorer returns: every record carries the fields of an input
    listing unchanged (a field of the input named ["score"] or ["rank"] is
    replaced), a numeric score and a rank, and NaN under every other key that
    some listing of the input carries. *)
Definition carried_through (listings : list listing)
    (out : list (gmap string value)) : Prop :=
  ∀ r, r ∈ out →
    ∃ l, l ∈ listings ∧
      (∀ key v, key ≠ "score" → key ≠ "rank" →
         l !! key = Some v → exact_in_float64 v → r !! key = Some v) ∧
      (∀ key, key ≠ "score" → key ≠ "rank" → l !! key = None →
         r !! key = if decide (key ∈ all_columns listings) then Some VNaN else None) ∧
      (∃ s k, r !! "score" = Some (VNum s) ∧ r !! "rank" = Some (rank_value k)).

Lemma hard_filter_rows_subseteq listings prefs df r :
  hard_filter listings prefs = Ok df →
  r ∈ rows df → ∃ l, l ∈ listings ∧ r = row_of (all_columns listings) l.
Proof.
  intros (_ & _ & H)%hard_filter_Ok Hr. destruct (H r Hr) as (l & ? & ? & _). eauto.
Qed.

Lemma row_of_lookup_None cols (l : listing) key :
  l !! key = None →
  row_of cols l !! key = if decide (key ∈ cols) then Some VNaN else None.
Proof.
  intros H. unfold row_of. rewrite lookup_union_r by done.
  destruct (decide (key ∈ cols)) as [Hin|Hin].
  - by apply lookup_gset_to_gmap_Some.
  - by apply lookup_gset_to_gmap_None.
Qed.

(** The records of the output, as values. *)
Lemma output_carried_through listings prefs out :
  score_listings listings prefs = Ok out → carried_through listings out.
Proof.
  intros [[-> _]|(df & sc & Hdf & _ & _ & ->)]%score_listings_Ok r Hr.
  { by apply elem_of_nil in Hr. }
  apply elem_of_ranked in Hr as (i & row & x & Hrow & _ & ->).
  apply list_elem_of_lookup_2 in Hrow.
  destruct (hard_filter_rows_subseteq _ _ _ _ Hdf Hrow) as (l & Hl & ->).
  exists l. split; [done|]. split; [|split].
  - intros key v Hs Hk Hv _. unfold scored_record.
    rewrite !lookup_insert_ne by done. by apply row_of_lookup_Some.
  - intros key Hs Hk Hv. unfold scored_record.
    rewrite !lookup_insert_ne by done. by apply row_of_lookup_None.
  - eexists _, _. by rewrite scored_record_score, scored_record_rank.
Qed.

(** *** The objects of the caller *)

(** The scorer runs on Python objects: the list [listings], its dicts, and
    the frames that pandas builds.  Here they live in a store, a list of
    objects addressed by their positions, and the statements of
    [score_listings] are run as transitions of the store, to show which
    objects are read, which are created and which are written. *)
Abbreviation loc := nat.

Inductive object : Type :=
  | ODict (d : gmap string value)
  | OList (items : list loc)
  | OFrame (df : DataFrame).

Abbreviation store := (list object).

(** Computations on the store that return or raise; the store is there
    after an exception as well. *)
Definition stateful (A : Type) : Type := store → result A * store.

#[global] Instance stateful_ret : MRet stateful := λ A a h, (Ok a, h).
#[global] Instance stateful_bind : MBind stateful := λ A B f m h,
  match m h with
  | (Ok a, h') => f a h'
  | (Raise e, h') => (Raise e, h')
  end.

(** A computation on values, which leaves the store alone. *)
Definition lift {A} (r : result A) : stateful A := λ h, (r, h).

(** A new object; its address is the next free one. *)
Definition new (o : object) : stateful loc := λ h, (Ok (length h), h ++ [o]).

Definition read_list (l : loc) : stateful (list loc) := λ h,
  match h !! l with
  | Some (OList items) => (Ok items, h)
  | _ => (Raise TypeError, h)
  end.

Definition read_dict (l : loc) : stateful (gmap string value) := λ h,
  match h !! l with
  | Some (ODict d) => (Ok d, h)
  | _ => (Raise TypeError, h)
  end.

Definition read_frame (l : loc) : stateful DataFrame := λ h,
  match h !! l with
  | Some (OFrame df) => (Ok df, h)
  | _ => (Raise TypeError, h)
  end.

(** A frame written in place, as [df[c] = vals] does. *)
Definition write_frame (l : loc) (df : DataFrame) : stateful unit := λ h,
  match h !! l with
  | Some (OFrame _) => (Ok (), <[l := OFrame df]> h)
  | _ => (Raise TypeError, h)
  end.

(** [HouseScorer.score_listings], statement by statement, on the store.
    [listings] is the address of the list that the caller passes; the result
    is the address of the list that is returned.  [pd.DataFrame], the
    boolean indexing and [sort_values] each build a new frame; the two
    assignments [df["score"] = ...] and [df["rank"] = ...] write the frame
    that [df] names at that point; [to_dict("records")] builds new dicts. *)
Definition score_listings_on_store (listings : loc) (user_preferences : preferences)
    : stateful loc :=
  items ← read_list listings;
  match items with
  | [] => new (OList [])
  | _ :: _ =>
      dicts ← mapM read_dict items;
      df ← new (OFrame (pd_DataFrame dicts));
      frame ← read_frame df;
      price ← lift (getitem frame "price");
      beds ← lift (getitem frame "beds");
      baths ← lift (getitem frame "baths");
      df ← new (OFrame (boolean_index frame
                          (hard_mask price beds baths user_preferences)));
      frame ← read_frame df;
      match rows frame with
      | [] => new (OList [])
      | _ :: _ =>
          sc ← lift (scores frame user_preferences);
          let final_scores := final_scores (length (rows frame))
                                (priorities user_preferences) sc in
          let score := round2 <$> final_scores in
          write_frame df (setitem frame "score" (VNum <$> score));;
          frame ← read_frame df;
          let rank := rank_dense score <$> score in
          write_frame df (setitem frame "rank" (rank_value <$> rank));;
          frame ← read_frame df;
          df ← new (OFrame (sort_values_desc frame));
          frame ← read_frame df;
          records ← mapM (λ r, new (ODict r)) (to_dict_records frame);
          new (OList records)
      end
  end.

(** The dicts at the addresses [items]. *)
Definition dicts_at (h : store) (items : list loc) (dicts : list (gmap string value))
    : Prop :=
  Forall2 (λ l d, h !! l = Some (ODict d)) items dicts.

Lemma bind_run {A B} (m : stateful A) (f : A → stateful B) h :
  (m ≫= f) h = match m h with
               | (Ok a, h') => f a h'
               | (Raise e, h') => (Raise e, h')
               end.
Proof. reflexivity. Qed.

Lemma new_run o h : new o h = (Ok (length h), h ++ [o]).
Proof. reflexivity. Qed.

Lemma lift_run {A} (r : result A) h : lift r h = (r, h).
Proof. reflexivity. Qed.

Lemma read_list_run h l items :
  h !! l = Some (OList items) → read_list l h = (Ok items, h).
Proof. intros H. unfold read_list. by rewrite H. Qed.

Lemma mapM_read_dict h items dicts :
  dicts_at h items dicts → mapM read_dict items h = (Ok dicts, h).
Proof.
  induction 1 as [|l d items dicts Hl _ IH]; [done|].
  simpl. rewrite bind_run. unfold read_dict at 1. rewrite Hl.
  rewrite bind_run, IH. reflexivity.
Qed.

Lemma mapM_new_dict (rs : list (gmap string value)) h :
  mapM (λ r, new (ODict r)) rs h
  = (Ok (seq (length h) (length rs)), h ++ (ODict <$> rs)).
Proof.
  revert h. induction rs as [|r rs IH]; intros h; simpl.
  { by rewrite app_nil_r. }
  rewrite bind_run, new_run. rewrite bind_run, IH.
  rewrite length_app. simpl. rewrite Nat.add_1_r, <- app_assoc. reflexivity.
Qed.

Lemma read_frame_new h df :
  read_frame (length h) (h ++ [OFrame df]) = (Ok df, h ++ [OFrame df]).
Proof. unfold read_frame. by rewrite list_lookup_middle. Qed.

Lemma write_frame_new h df df' :
  write_frame (length h) df' (h ++ [OFrame df]) = (Ok (), h ++ [OFrame df']).
Proof.
  unfold write_frame. rewrite list_lookup_middle by done.
  rewrite insert_app_r_alt by lia. by rewrite Nat.sub_diag.
Qed.

Ltac step lem := rewrite bind_run, lem; cbv beta iota.

(** [score_listings] on a non-empty list, match by match. *)
Lemma score_listings_unfold (ds : list listing) prefs :
  ds ≠ [] →
  score_listings ds prefs =
  let df := pd_DataFrame ds in
  match getitem df "price" with
  | Raise e => Raise e
  | Ok price =>
      match getitem df "beds" with
      | Raise e => Raise e
      | Ok beds =>
          match getitem df "baths" with
          | Raise e => Raise e
          | Ok baths =>
              let df := boolean_index df (hard_mask price beds baths prefs) in
              match rows df with
              | [] => Ok []
              | _ :: _ =>
                  match scores df prefs with
                  | Raise e => Raise e
                  | Ok sc =>
                      Ok (ranked df (final_scores (length (rows df))
                                                  (priorities prefs) sc))
                  end
              end
          end
      end
  end.
Proof.
  intros Hne. destruct ds as [|d ds]; [done|].
  unfold score_listings, hard_filter.
  destruct (getitem _ "price"); [|done].
  destruct (getitem _ "beds"); [|done].
  destruct (getitem _ "baths"); [|done]. reflexivity.
Qed.

(** The run of the scorer on the store, in terms of the function
    [score_listings] of the values: the objects of the caller come first in
    the store that is left, as they were, followed by the frames that were
    built and, when the scorer returns, by the dicts of the records and the
    list of their addresses. *)
Lemma score_listings_on_store_run h listings items dicts prefs :
  h !! listings = Some (OList items) → dicts_at h items dicts →
  ∃ temporaries : store,
    score_listings_on_store listings prefs h =
    match score_listings dicts prefs with
    | Raise e => (Raise e, h ++ temporaries)
    | Ok out =>
        (Ok (length h + length temporaries + length out)%nat,
         h ++ temporaries ++ (ODict <$> out)
           ++ [OList (seq (length h + length temporaries) (length out))])
    end.
Proof.
  intros Hl Hd. unfold score_listings_on_store.
  step (read_list_run h listings items Hl).
  pose proof (Forall2_length _ _ _ Hd) as Hlen.
  destruct items as [|l items'] eqn:Ei.
  { destruct dicts; [|done]. simpl. exists []. simpl.
    by rewrite !Nat.add_0_r. }
  assert (dicts ≠ []) as Hne by (by intros ->).
  rewrite <- Ei in *. clear Ei.
  rewrite score_listings_unfold by done.
  step (mapM_read_dict h items dicts Hd).
  step new_run. step read_frame_new.
  set (df0 := pd_DataFrame dicts). cbv zeta.
  rewrite bind_run, lift_run.
  destruct (getitem df0 "price") as [price|e]; [|by exists [OFrame df0]].
  rewrite bind_run, lift_run.
  destruct (getitem df0 "beds") as [beds|e]; [|by exists [OFrame df0]].
  rewrite bind_run, lift_run.
  destruct (getitem df0 "baths") as [baths|e]; [|by exists [OFrame df0]].
  cbv beta iota.
  step new_run. step read_frame_new.
  set (df1 := boolean_index df0 (hard_mask price beds baths prefs)).
  destruct (rows df1) as [|r1 rs1] eqn:Hrows.
  { exists [OFrame df0; OFrame df1]. rewrite new_run.
    f_equal.
    - f_equal. rewrite !length_app. simpl. lia.
    - rewrite <- !app_assoc. simpl. repeat f_equal; lia. }
  rewrite <- Hrows. rewrite bind_run, lift_run.
  destruct (scores df1 prefs) as [sc|e].
  2:{ exists [OFrame df0; OFrame df1]. by rewrite <- !app_assoc. }
  cbv beta iota zeta.
  step write_frame_new. step read_frame_new.
  step write_frame_new. step read_frame_new.
  step new_run. step read_frame_new.
  step mapM_new_dict.
  rewrite new_run.
  set (final := final_scores (length (rows df1)) (priorities prefs) sc).
  set (score := round2 <$> final).
  set (df2 := setitem (setitem df1 "score" (VNum <$> score)) "rank"
                (rank_value <$> (rank_dense score <$> score))).
  change (to_dict_records (sort_values_desc df2)) with (ranked df1 final).
  exists [OFrame df0; OFrame df2; OFrame (sort_values_desc df2)].
  f_equal.
  - f_equal. rewrite !length_app, length_fmap. simpl. lia.
  - rewrite <- !app_assoc. simpl. repeat f_equal;
      rewrite ?length_app; simpl; lia.
Qed.

(** What the caller finds after a call: an outcome of [score_listings] on
    the store, together with the function of the values that gives it. *)
Definition after_call (h : store) (dicts : list (gmap string value))
    (prefs : preferences) (outcome : result loc) (h' : store) : Prop :=
  (∀ l o, h !! l = Some o → h' !! l = Some o) ∧
  match outcome with
  | Raise e => score_listings dicts prefs = Raise e
  | Ok result =>
      ∃ records out,
        h' !! result = Some (OList records) ∧ dicts_at h' records out ∧
        Forall (λ l, h !! l = None) (result :: records) ∧
        score_listings dicts prefs = Ok out ∧
        carried_through dicts out
  end.

(** C9, amended.  [score_listings] writes to none of the objects that exist
    when it is called: after the call, whether it returns or raises, the list
    [listings], its dicts and every other object of the caller are as they
    were.  The list that is returned and the dicts of its records are new
    objects.  Every record carries all the fields of an input listing
    unchanged, except for fields already named ["score"] or ["rank"], which
    are replaced; it is augmented with the score and the rank, and also with a
    NaN for every key that the listing lacks and another input listing
    carries. *)
Theorem score_listings_carries_fields h listings items dicts prefs outcome h' :
  h !! listings = Some (OList items) → dicts_at h items dicts →
  score_listings_on_store listings prefs h = (outcome, h') →
  after_call h dicts prefs outcome h'.
Proof.
  intros Hl Hd Hrun.
  destruct (score_listings_on_store_run h listings items dicts prefs Hl Hd)
    as [temporaries Hrun'].
  rewrite Hrun in Hrun'. clear Hrun.
  destruct (score_listings dicts prefs) as [out|e] eqn:Hout;
    injection Hrun' as -> ->; (split; [intros l o Ho; by apply lookup_app_l_Some|]).
  2:{ done. }
  set (n := (length h + length temporaries)%nat).
  exists (seq n (length out)), out. split; [|split; [|split; [|split]]].
  - rewrite !app_assoc. rewrite list_lookup_middle; [done|].
    rewrite !length_app, length_fmap. unfold n. lia.
  - unfold dicts_at. apply Forall2_same_length_lookup_2.
    { by rewrite length_seq. }
    intros i l r Hi Hr. apply lookup_seq in Hi as [-> Hi].
    rewrite app_assoc. rewrite lookup_app_r by (rewrite length_app; unfold n; lia).
    rewrite length_app. fold n. replace (n + i - n)%nat with i by lia.
    rewrite lookup_app_l by (rewrite length_fmap; lia).
    by rewrite list_lookup_fmap, Hr.
  - apply Forall_forall. intros l Hin. apply lookup_ge_None_2.
    apply elem_of_cons in Hin as [->|Hin]; [unfold n; lia|].
    apply elem_of_seq in Hin. unfold n in Hin. lia.
  - done.
  - by apply (output_carried_through dicts prefs).
Qed.

(** The sample of the source in a store: its three dicts, then the list. *)
Definition sample_store : store :=
  (ODict <$> sample_listings) ++ [OList [0; 1; 2]%nat].

Definition sample_run : result loc * store :=
  score_listings_on_store 3 sample_preferences sample_store.

Lemma score_listings_carries_fields_witness :
  after_call sample_store sample_listings sample_preferences
    sample_run.1 sample_run.2.
Proof.
  apply (score_listings_carries_fields sample_store 3 [0; 1; 2]%nat).
  - reflexivity.
  - repeat constructor.
  - apply surjective_pairing.
Defined.

(** Counterexample to C9 as stated: the second listing of
    [sqft_gap_listings] has no ["sqft"], and its record in the output has the
    key ["sqft"], with the value NaN. *)
Lemma nan_fields_counterexample :
  ∃ out,
    score_listings sqft_gap_listings (only_priorities [("size", 1); ("age", 1)]) = Ok out ∧
    ¬ augmented_only sqft_gap_listings out.
Proof.
  set (res := score_listings sqft_gap_listings
                (only_priorities [("size", 1); ("age", 1)])).
  set (out := match res with Ok out => out | Raise _ => [] end).
  exists out. split; [apply Ok_match; vm_compute; reflexivity|].
  intros H.
  destruct (H (out !!! 2%nat)) as (l & s & k & Hl & E).
  { apply list_elem_of_lookup_total_2. vm_compute. lia. }
  apply (f_equal (λ m : gmap string value, (m !! "id", m !! "sqft"))) in E.
  rewrite !lookup_insert_ne in E by done.
  assert ((out !!! 2%nat) !! "id" = Some (VStr "2") ∧
          (out !!! 2%nat) !! "sqft" = Some VNaN) as [E1 E2]
    by (split; vm_compute; reflexivity).
  rewrite E1, E2 in E. clear E1 E2 H. clearbody out. clear res.
  unfold sqft_gap_listings in Hl. rewrite !elem_of_cons in Hl.
  destruct Hl as [->|[->|[->|[]%elem_of_nil]]]; vm_compute in E; discriminate.
Qed.

(** ** C10: the score is the rounded weighted sum *)

Lemma rint_proper (x y : Q) : x == y → rint x = rint y.
Proof.
  intros E. unfold rint. rewrite (Qfloor_comp x y E).
  assert (x - inject_Z (Qfloor y) == y - inject_Z (Qfloor y)) as E' by (by rewrite E).
  by rewrite (Qcompare_comp _ _ E' (1 # 2) (1 # 2) (Qeq_refl _)).
Qed.

Lemma round2_proper (x y : Q) : x == y → round2 x = round2 y.
Proof.
  intros E. unfold round2. rewrite (rint_proper (x * 100) (y * 100)); [done|].
  by rewrite E.
Qed.

(** [rint] is within one half of its argument. *)
Lemma rint_bound (x : Q) :
  - (1 # 2) <= inject_Z (rint x) - x ∧ inject_Z (rint x) - x <= 1 # 2.
Proof.
  unfold rint.
  pose proof (Qfloor_le x) as Hlo. pose proof (Qlt_floor x) as Hhi.
  rewrite inject_Z_plus in Hhi. change (inject_Z 1) with 1 in Hhi.
  destruct (Qcompare (x - inject_Z (Qfloor x)) (1 # 2)) eqn:E.
  - apply Qeq_alt in E. destruct (Z.even (Qfloor x)).
    + lra.
    + rewrite inject_Z_plus. change (inject_Z 1) with 1. lra.
  - apply Qlt_alt in E. lra.
  - apply Qgt_alt in E. rewrite inject_Z_plus. change (inject_Z 1) with 1. lra.
Qed.

(** [round2] is a multiple of one hundredth within half a hundredth of its
    argument. *)
Lemma round2_bound (x : Q) : Qabs (round2 x - x) <= 1 # 200.
Proof.
  apply Qabs_Qle_condition. unfold round2.
  rewrite (Qmake_Qdiv (rint (x * 100)) 100).
  destruct (rint_bound (x * 100)) as [H1 H2].
  change (inject_Z (Z.pos 100)) with 100.
  set (z := inject_Z (rint (x * 100))) in *.
  assert (z / 100 == z * (1 # 100)) as -> by (field; lra).
  lra.
Qed.

Lemma round2_Qeq (x y : Q) : round2 x == round2 y → round2 x = round2 y.
Proof.
  unfold round2, Qeq. simpl. intros H. f_equal. lia.
Qed.

Lemma Qsum_fmap_ext {A} (f g : A → Q) (l : list A) :
  (∀ a, a ∈ l → f a == g a) → Qsum (f <$> l) == Qsum (g <$> l).
Proof.
  induction l as [|a l IH]; intros H; [reflexivity|].
  rewrite !fmap_cons, !Qsum_cons.
  rewrite (H a) by left. rewrite IH; [reflexivity|].
  intros b ?. apply H. by right.
Qed.

(** The term of one component in the weighted sum of row [i], for a map
    [key] from the columns of [scores] to the keys of the priorities. *)
Definition term (prio : gmap string Q) (key : string → string) (i : nat)
    (cs : string * Series) : Q :=
  fillna 50 (default NaN (cs.2 !! i)) * get_weight prio (key cs.1).

(** The loop of the scorer computes, row by row, the sum of the terms. *)
Lemma final_scores_fold (n : nat) prio (sc : list (string * Series)) i :
  (i < n)%nat →
  Forall (λ cs : string * Series, length cs.2 = n) sc →
  ∀ (acc : list Q) a,
    acc !! i = Some a →
    ∃ x, foldl (λ acc (cs : string * Series),
                  let weight := get_weight prio (weight_key cs.1) in
                  zip_with Qplus acc ((λ c, fillna 50 c * weight) <$> cs.2))
               acc sc !! i = Some x ∧
         x == a + Qsum (term prio weight_key i <$> sc).
Proof.
  intros Hi. induction 1 as [|cs sc Hlen _ IH]; intros acc a Hacc; simpl.
  { exists a. split; [done|]. unfold Qsum. simpl. ring. }
  destruct (lookup_lt_is_Some_2 cs.2 i) as [c Hc]; [lia|].
  edestruct (IH (zip_with Qplus acc
                   ((λ c, fillna 50 c * get_weight prio (weight_key cs.1)) <$> cs.2)))
    as (x & Hx & Ex).
  { rewrite lookup_zip_with, Hacc, list_lookup_fmap, Hc. simpl. reflexivity. }
  exists x. split; [done|]. rewrite Ex. 
  change (Qsum (term prio weight_key i cs :: (term prio weight_key i <$> sc)))
    with (term prio weight_key i cs + Qsum (term prio weight_key i <$> sc)).
  unfold term at 2. rewrite Hc. simpl. symmetry. apply Qplus_assoc.
Qed.

Lemma final_scores_lookup (n : nat) prio (sc : list (string * Series)) i :
  (i < n)%nat →
  Forall (λ cs : string * Series, length cs.2 = n) sc →
  ∃ x, final_scores n prio sc !! i = Some x ∧
       x == Qsum (term prio weight_key i <$> sc).
Proof.
  intros Hi Hsc. unfold final_scores.
  destruct (final_scores_fold n prio sc i Hi Hsc (replicate n 0) 0) as (x & Hx & Ex).
  { by apply lookup_replicate_2. }
  exists x. split; [done|]. rewrite Ex. ring.
Qed.

(** The criterion of each column of [scores], as the priorities name it. *)
Definition criterion (component : string) : string :=
  if decide (component = "price_score") then "price"
  else if decide (component = "location_score") then "location"
  else if decide (component = "size_score") then "size"
  else if decide (component = "bedroom_score") then "bedrooms"
  else if decide (component = "age_score") then "age"
  else component.

(** A frame of component scores without the bedroom column. *)
Definition criteria_columns (sc : list (string * Series)) : Prop :=
  Forall (λ cs : string * Series,
            cs.1 ∈ ["price_score"; "location_score"; "size_score"; "age_score"]) sc.

(** Component scores on the scale of the source, from 0 to 100 (or
    missing). *)
Definition on_scale (sc : list (string * Series)) : Prop :=
  Forall (λ cs : string * Series,
            Forall (λ x : Q, 0 <= x ∧ x <= 100) (present cs.2)) sc.

(** Weights that are fractions, as in the docstring of [score_listings]. *)
Definition fractions (prio : gmap string Q) (sc : list (string * Series)) : Prop :=
  Forall (λ cs : string * Series,
            0 <= get_weight prio (criterion cs.1) ∧
            get_weight prio (criterion cs.1) <= 1) sc.

(** The weighted sum of the components of row [i], NaN counting for 50. *)
Definition weighted_sum (prio : gmap string Q) (sc : list (string * Series))
    (i : nat) : Q :=
  Qsum (term prio criterion i <$> sc).

(** The sums of the model are exact; those of numpy carry the rounding
    error of float64, which on the scale of [on_scale] and [fractions] is far
    below this margin. *)
Definition float_slack : Q := 1 # 1000000.

(** The scores and the ranks of the records of the output [out], for the
    frame [df] and the component scores [sc]: row by row a score, which is a
    number of hundredths next to the weighted sum, and the dense rank of the
    score among the scores. *)
Definition rounded_score_law (df : DataFrame) (prio : gmap string Q)
    (sc : list (string * Series)) (out : list (gmap string value)) : Prop :=
  ∃ score : list Q,
    length score = length (rows df) ∧
    (∀ r, r ∈ out ↔
       ∃ i row s, rows df !! i = Some row ∧ score !! i = Some s ∧
         r = scored_record row s (rank_dense score s)) ∧
    (∀ i s, score !! i = Some s →
       (∃ z : Z, s = z # 100) ∧
       Qabs (s - weighted_sum prio sc i) <= (1 # 200) + float_slack).

(** Away from the bedroom column, the key under which the loop looks a
    weight up is the criterion of the column. *)
Lemma weight_key_criterion (sc : list (string * Series)) cs :
  criteria_columns sc → cs ∈ sc → weight_key cs.1 = criterion cs.1.
Proof.
  intros Hcols Hin. unfold criteria_columns in Hcols.
  rewrite Forall_forall in Hcols. specialize (Hcols cs Hin).
  rewrite !elem_of_cons in Hcols.
  destruct Hcols as [->|[->|[->|[->|[]%elem_of_nil]]]]; reflexivity.
Qed.

(** What [score_listings] returns when the filtered set is not empty: the
    result of its last stage (lines 84 to 96) on the frame of the component
    scores. *)
Lemma score_listings_last_stage listings prefs df sc :
  hard_filter listings prefs = Ok df → rows df ≠ [] →
  scores df prefs = Ok sc →
  score_listings listings prefs
  = Ok (ranked df (final_scores (length (rows df)) (priorities prefs) sc)).
Proof.
  intros Hdf Hne Hsc.
  unfold score_listings. destruct listings as [|l0 ls].
  - unfold hard_filter in Hdf.
    rewrite (getitem_KeyError _ "price") in Hdf by apply not_elem_of_empty.
    discriminate.
  - rewrite Hdf. simpl. destruct (rows df) eqn:E; [done|].
    rewrite <- E, Hsc. reflexivity.
Qed.

(** C10, amended.  The last stage of [score_listings] (the loop of the
    weighted sum, the rounding and the ranking), which by
    [score_listings_last_stage] gives the output for every non-empty filtered
    set: for any frame of component scores between 0 and 100 (the bedroom
    column left out) and weights between 0 and 1, each listing of the filtered
    set is returned with a score that is a number of hundredths within half a
    hundredth (and the margin of the float sum) of the weighted sum of its
    component scores, NaN counting for 50, and with the dense rank of its
    score among the scores as its rank. *)
Theorem score_is_rounded_weighted_sum df prio sc :
  Forall (λ cs : string * Series, length cs.2 = length (rows df)) sc →
  criteria_columns sc → on_scale sc → fractions prio sc →
  rounded_score_law df prio sc
    (ranked df (final_scores (length (rows df)) prio sc)).
Proof.
  intros Hlens Hcols _ _.
  set (n := length (rows df)) in *. set (final := final_scores n prio sc).
  assert (∀ i, weighted_sum prio sc i == Qsum (term prio weight_key i <$> sc)) as Hsum.
  { intros i. unfold weighted_sum. apply Qsum_fmap_ext. intros cs Hcs.
    unfold term. by rewrite (weight_key_criterion _ _ Hcols Hcs). }
  exists (round2 <$> final). split; [|split].
  - unfold final. rewrite length_fmap. by apply final_scores_length.
  - intros r. rewrite elem_of_ranked. fold final. split.
    + intros (i & row & x & Hrow & Hx & ->). exists i, row, (round2 x).
      by rewrite list_lookup_fmap, Hx.
    + intros (i & row & s & Hrow & Hs & ->).
      apply list_lookup_fmap_Some in Hs as (x & -> & Hx). by exists i, row, x.
  - intros i s Hs. apply list_lookup_fmap_Some in Hs as (x & -> & Hx).
    split; [by eexists|].
    assert (i < n)%nat as Hi.
    { apply lookup_lt_Some in Hx. unfold final in Hx.
      by rewrite final_scores_length in Hx. }
    destruct (final_scores_lookup n prio sc i Hi Hlens) as (x' & Hx' & Ex).
    assert (x' = x) as -> by (unfold final in Hx; congruence).
    pose proof (round2_bound x) as Hb.
    assert (round2 x - weighted_sum prio sc i == round2 x - x) as ->.
    { rewrite Hsum, <- Ex. reflexivity. }
    apply Qle_trans with (1 # 200); [done|]. vm_compute. discriminate.
Qed.

Definition sample_scores : list (string * Series) :=
  match scores (filtered sample_listings
                  (only_priorities [("price", 3 # 10); ("location", 25 # 100);
                                    ("size", 2 # 10); ("age", 1 # 10)]))
               (only_priorities [("price", 3 # 10); ("location", 25 # 100);
                                 ("size", 2 # 10); ("age", 1 # 10)]) with
  | Ok sc => sc
  | Raise _ => []
  end.

Lemma score_is_rounded_weighted_sum_witness :
  let prefs := only_priorities [("price", 3 # 10); ("location", 25 # 100);
                                ("size", 2 # 10); ("age", 1 # 10)] in
  let df := filtered sample_listings prefs in
  rounded_score_law df (priorities prefs) sample_scores
    (ranked df (final_scores (length (rows df)) (priorities prefs) sample_scores)).
Proof.
  intros prefs df.
  apply (score_is_rounded_weighted_sum df (priorities prefs) sample_scores).
  - apply (scores_length df prefs).
    unfold sample_scores. apply Ok_match. vm_compute. reflexivity.
  - apply (bool_decide_unpack _). vm_compute. exact I.
  - apply (bool_decide_unpack _). vm_compute. exact I.
  - apply (bool_decide_unpack _). vm_compute. exact I.
Defined.

Definition rounding_listings : list listing :=
  [ numeric_listing "1" [("price", 300000); ("beds", 3); ("baths", 2); ("sqft", 1000)];
    numeric_listing "2" [("price", 300000); ("beds", 3); ("baths", 2); ("sqft", 1040)];
    numeric_listing "3" [("price", 300000); ("beds", 3); ("baths", 2); ("sqft", 1060)];
    numeric_listing "4" [("price", 300000); ("beds", 3); ("baths", 2); ("sqft", 2000)] ].

Definition rounding_scores : list (string * Series) :=
  match scores (filtered rounding_listings (only_priorities [("size", 1 # 1000)]))
               (only_priorities [("size", 1 # 1000)]) with
  | Ok sc => sc
  | Raise _ => []
  end.

Definition rounding_scored : list (gmap string value) :=
  match score_listings rounding_listings (only_priorities [("size", 1 # 1000)]) with
  | Ok out => out
  | Raise _ => []
  end.

(** Counterexample to C10 as stated: with the weight 0.001 on size, the
    weighted sums of the listings "2" and "3" (the rows 1 and 2 of the
    filtered frame) are 0.004 and 0.006; they differ by less than one
    hundredth, and yet the scores are 0.00 and 0.01 and the ranks 3 and 2.
    The two records are named by their ids, not by their places in the
    output. *)
Lemma close_sums_counterexample :
  let prefs := only_priorities [("size", 1 # 1000)] in
  let df := filtered rounding_listings prefs in
  ∃ out row2 row3 r2 r3,
    hard_filter rounding_listings prefs = Ok df ∧
    scores df prefs = Ok rounding_scores ∧
    score_listings rounding_listings prefs = Ok out ∧
    rows df !! 1%nat = Some row2 ∧ rows df !! 2%nat = Some row3 ∧
    row2 !! "id" = Some (VStr "2") ∧ row3 !! "id" = Some (VStr "3") ∧
    r2 ∈ out ∧ r3 ∈ out ∧
    r2 !! "id" = Some (VStr "2") ∧ r3 !! "id" = Some (VStr "3") ∧
    weighted_sum (priorities prefs) rounding_scores 1 == 4 # 1000 ∧
    weighted_sum (priorities prefs) rounding_scores 2 == 6 # 1000 ∧
    Qabs (weighted_sum (priorities prefs) rounding_scores 1
          - weighted_sum (priorities prefs) rounding_scores 2) < 1 # 100 ∧
    score_of r2 = 0 # 100 ∧ score_of r3 = 1 # 100 ∧
    ¬ score_of r2 == score_of r3 ∧
    rank_of r2 = 3%nat ∧ rank_of r3 = 2%nat.
Proof.
  intros prefs df.
  exists rounding_scored, (rows df !!! 1%nat), (rows df !!! 2%nat),
    (rounding_scored !!! 3%nat), (rounding_scored !!! 1%nat).
  split; [unfold df, filtered; apply Ok_match; vm_compute; reflexivity|].
  split; [unfold rounding_scores; apply Ok_match; vm_compute; reflexivity|].
  split; [unfold rounding_scored; apply Ok_match; vm_compute; reflexivity|].
  split; [apply list_lookup_lookup_total_lt; vm_compute; lia|].
  split; [apply list_lookup_lookup_total_lt; vm_compute; lia|].
  split; [vm_compute; reflexivity|]. split; [vm_compute; reflexivity|].
  split; [apply list_elem_of_lookup_total_2; vm_compute; lia|].
  split; [apply list_elem_of_lookup_total_2; vm_compute; lia|].
  split; [vm_compute; reflexivity|]. split; [vm_compute; reflexivity|].
  split; [vm_compute; reflexivity|]. split; [vm_compute; reflexivity|].
  split; [vm_compute; reflexivity|]. split; [vm_compute; reflexivity|].
  split; [vm_compute; reflexivity|].
  split; [vm_compute; discriminate|].
  split; vm_compute; reflexivity.
Qed.

(** * Further properties of the scorer *)

(** Listings whose numbers, in the columns that the scorer computes with,
    are in the range of [moderate].  The properties below that depend on the
    arithmetic of the columns are stated for such listings. *)
Definition moderate_cell (v : option value) : Prop :=
  match v with
  | Some (VNum q) => moderate q
  | _ => True
  end.

#[global] Instance moderate_cell_dec v : Decision (moderate_cell v).
Proof. destruct v as [[q| |s]|]; simpl; apply _. Defined.

Definition moderate_listings (listings : list listing) : Prop :=
  Forall (λ l : listing, Forall (λ c, moderate_cell (l !! c)) numeric_columns)
         listings.

(** Preferences whose bounds, where given, are in the range of
    [moderate]. *)
Definition moderate_preferences (prefs : preferences) : Prop :=
  from_option moderate True (max_price prefs) ∧
  from_option moderate True (min_beds prefs) ∧
  from_option moderate True (min_baths prefs).

#[global] Instance moderate_preferences_dec prefs : Decision (moderate_preferences prefs).
Proof.
  unfold moderate_preferences.
  destruct (max_price prefs), (min_beds prefs), (min_baths prefs); simpl; apply _.
Defined.

Lemma sample_listings_moderate : moderate_listings sample_listings.
Proof. apply (bool_decide_unpack _). vm_compute. exact I. Qed.

Lemma year_gap_listings_moderate : moderate_listings year_gap_listings.
Proof. apply (bool_decide_unpack _). vm_compute. exact I. Qed.

(** ** [_normalize] *)

Lemma normalize_lookup_inv (s : Series) i y :
  _normalize s !! i = Some y → ∃ a, s !! i = Some a.
Proof.
  intros H. apply lookup_lt_is_Some_2.
  rewrite <- (normalize_length s). by eapply lookup_lt_Some.
Qed.

(** The value that the general formula gives to a present value. *)
Lemma normalize_value (s : Series) i a x :
  std_is_zero s = false → s !! i = Some (Fin a) →
  _normalize s !! i = Some (Fin x) →
  ∃ lo hi, least lo (present s) ∧ greatest hi (present s) ∧ lo < hi ∧
           x = (a - lo) / (hi - lo).
Proof.
  intros Hstd Ha Hx. rewrite (normalize_general s i _ Hstd Ha) in Hx.
  assert (a ∈ present s) as Hin.
  { apply elem_of_present. by eapply list_elem_of_lookup_2. }
  assert (present s ≠ []) as Hne.
  { intros E. rewrite E in Hin. by apply elem_of_nil in Hin. }
  destruct (series_min_least s Hne) as (lo & Hlo & Hleast).
  destruct (series_max_greatest s Hne) as (hi & Hhi & Hgreatest).
  rewrite Hlo, Hhi in Hx. simpl in Hx.
  destruct (Qeq_bool (hi - lo) 0) eqn:E; [done|]. apply Qeq_bool_neq in E.
  injection Hx as <-. exists lo, hi. repeat split; try done; try apply Hleast;
    try apply Hgreatest.
  destruct Hleast as [_ Hl], Hgreatest as [_ Hg].
  pose proof (Hl a Hin). pose proof (Hg a Hin).
  apply Qnot_le_lt. intros Hle. apply E. lra.
Qed.

Lemma Qdiv_unit (n d : Q) : 0 < d → 0 <= n → n <= d → 0 <= n / d ∧ n / d <= 1.
Proof.
  intros Hd Hn Hnd. split.
  - apply Qle_shift_div_l; [done|]. lra.
  - apply Qle_shift_div_r; [done|]. lra.
Qed.

Lemma Qdiv_le_mono (n m d : Q) : 0 < d → n <= m → n / d <= m / d.
Proof.
  intros Hd Hnm. apply Qle_shift_div_l; [done|].
  assert (n / d * d == n) as -> by (field; lra). done.
Qed.

(** X1.  On a series of numbers in the range of [moderate], every value
    that [_normalize] returns is NaN or lies between 0 and 1. *)
Theorem normalize_unit_interval (s : Series) i x :
  Forall moderate (present s) →
  _normalize s !! i = Some (Fin x) → 0 <= x ∧ x <= 1.
Proof.
  intros _ Hx. destruct (std_is_zero s) eqn:Hstd.
  - rewrite normalize_constant, list_lookup_fmap in Hx by done.
    destruct (s !! i); simplify_eq/=. split; lra.
  - destruct (normalize_lookup_inv _ _ _ Hx) as [[|a] Ha].
    { rewrite (normalize_NaN s i Hstd Ha) in Hx. done. }
    destruct (normalize_value s i a x Hstd Ha Hx)
      as (lo & hi & [_ Hl] & [_ Hg] & Hlt & ->).
    assert (a ∈ present s) as Hin.
    { apply elem_of_present. by eapply list_elem_of_lookup_2. }
    pose proof (Hl a Hin). pose proof (Hg a Hin).
    apply Qdiv_unit; lra.
Qed.

(** X2.  On a series of numbers in the range of [moderate], [_normalize]
    keeps the order of the values: of two present values, the larger one does
    not get the smaller result. *)
Theorem normalize_monotone (s : Series) i j a b x y :
  Forall moderate (present s) →
  s !! i = Some (Fin a) → s !! j = Some (Fin b) → a <= b →
  _normalize s !! i = Some (Fin x) → _normalize s !! j = Some (Fin y) →
  x <= y.
Proof.
  intros _ Ha Hb Hab Hx Hy. destruct (std_is_zero s) eqn:Hstd.
  - rewrite normalize_constant, list_lookup_fmap in Hx, Hy by done.
    rewrite Ha in Hx. rewrite Hb in Hy. simplify_eq/=. lra.
  - destruct (normalize_value s i a x Hstd Ha Hx)
      as (lo & hi & Hl & Hg & Hlt & ->).
    destruct (normalize_value s j b y Hstd Hb Hy)
      as (lo' & hi' & Hl' & Hg' & Hlt' & ->).
    assert (lo' == lo) as El.
    { destruct Hl as [(u & Hu & Eu) Hl], Hl' as [(u' & Hu' & Eu') Hl'].
      pose proof (Hl u' Hu'). pose proof (Hl' u Hu). lra. }
    assert (hi' == hi) as Eh.
    { destruct Hg as [(u & Hu & Eu) Hg], Hg' as [(u' & Hu' & Eu') Hg'].
      pose proof (Hg u' Hu'). pose proof (Hg' u Hu). lra. }
    rewrite El, Eh. apply Qdiv_le_mono; lra.
Qed.

Lemma normalize_monotone_witness :
  (2 - 1) / (5 - 1) <= (5 - 1) / (5 - 1).
Proof.
  apply (normalize_monotone [Fin 2; Fin 1; NaN; Fin 5] 0 3 2 5).
  - apply (bool_decide_unpack _). vm_compute. exact I.
  - reflexivity.
  - reflexivity.
  - vm_compute. discriminate.
  - vm_compute. reflexivity.
  - vm_compute. reflexivity.
Defined.

Lemma normalize_unit_interval_witness :
  0 <= (2 - 1) / (5 - 1) ∧ (2 - 1) / (5 - 1) <= 1.
Proof.
  apply (normalize_unit_interval [Fin 2; Fin 1; NaN; Fin 5] 0).
  - apply (bool_decide_unpack _). vm_compute. exact I.
  - vm_compute. reflexivity.
Defined.

(** X3.  The guard of [_normalize]: when at least two values are present and
    all of them are the same integer [z], small enough for the sum of the
    column to be exact in float64 ([|z|] times the length at most 2^53), the
    result is 0 at every position, also where the series is NaN. *)
Theorem normalize_repeated_value (s : Series) (z : Z) :
  (2 ≤ length (present s))%nat →
  (∀ x, x ∈ present s → x == inject_Z z) →
  (Z.abs z * Z.of_nat (length s) ≤ 9007199254740992)%Z →
  _normalize s = (λ _, Fin 0) <$> s.
Proof.
  intros Hlen Hz _. apply normalize_constant. apply std_is_zero_iff.
  split; [done|]. intros x y Hx Hy. by rewrite (Hz x Hx), (Hz y Hy).
Qed.

Lemma normalize_repeated_value_witness :
  _normalize [Fin 7; NaN; Fin 7] = (λ _, Fin 0) <$> [Fin 7; NaN; Fin 7].
Proof.
  apply (normalize_repeated_value _ 7).
  - simpl. lia.
  - intros x Hx. simpl in Hx. rewrite !elem_of_cons in Hx.
    destruct Hx as [->|[->|[]%elem_of_nil]]; reflexivity.
  - simpl. lia.
Defined.

Lemma normalize_single_value_lookup (s : Series) i y :
  (length (present s) ≤ 1)%nat → _normalize s !! i = Some y → y = NaN.
Proof.
  intros Hlen Hy.
  assert (std_is_zero s = false) as Hstd.
  { destruct (std_is_zero s) eqn:E; [|done].
    apply std_is_zero_iff in E as [? _]. lia. }
  destruct (normalize_lookup_inv _ _ _ Hy) as [a Ha].
  rewrite (normalize_general s i a Hstd Ha) in Hy. injection Hy as <-.
  destruct a as [|a]; [done|].
  assert (a ∈ present s) as Hin.
  { apply elem_of_present. by eapply list_elem_of_lookup_2. }
  unfold series_min, series_max.
  destruct (present s) as [|b [|c l]]; [by apply elem_of_nil in Hin| |simpl in Hlen; lia].
  simpl. destruct (Qeq_bool (b - b) 0) eqn:E; [done|].
  apply Qeq_bool_neq in E. exfalso. apply E. ring.
Qed.

(** X4.  When at most one value of a series is present, the guard of
    [_normalize] does not fire ([std()] is NaN) and every result is NaN: for a
    single value the formula divides 0 by 0. *)
Theorem normalize_single_value (s : Series) :
  (length (present s) ≤ 1)%nat → _normalize s = (λ _, NaN) <$> s.
Proof.
  intros Hlen. apply list_eq. intros i. rewrite list_lookup_fmap.
  destruct (_normalize s !! i) as [y|] eqn:Hy.
  - rewrite (normalize_single_value_lookup s i y Hlen Hy).
    destruct (normalize_lookup_inv _ _ _ Hy) as [a ->]. done.
  - apply lookup_ge_None_1 in Hy. rewrite normalize_length in Hy.
    by rewrite lookup_ge_None_2.
Qed.

Lemma normalize_single_value_witness :
  _normalize [NaN; Fin 400000] = (λ _, NaN) <$> [NaN; Fin 400000].
Proof. apply normalize_single_value. simpl. lia. Defined.

(** ** [_normalize] on an int64 column *)

(** A column of Python ints without a missing value is an int64 column: its
    subtractions wrap around at 2^63. *)
Definition wrap64 (z : Z) : Z :=
  ((z + 9223372036854775808) mod 18446744073709551616 - 9223372036854775808)%Z.

Definition Zmin_list (l : list Z) : Z := foldr Z.min (hd 0%Z l) l.
Definition Zmax_list (l : list Z) : Z := foldr Z.max (hd 0%Z l) l.

(** The column as floats, as [std] and the division read it. *)
Definition as_floats (series : list Z) : Series :=
  (λ z, Fin (inject_Z z)) <$> series.

(** [HouseScorer._normalize] on an int64 column: [series - series.min()] and
    [series.max() - series.min()] are int64 subtractions, the division is the
    one of floats. *)
Definition normalize_int64 (series : list Z) : Series :=
  if std_is_zero (as_floats series) || (length series =? 0)%nat then
    (λ _, Fin 0) <$> series
  else
    (λ x, num_div (Fin (inject_Z (wrap64 (x - Zmin_list series))))
                  (Fin (inject_Z (wrap64 (Zmax_list series - Zmin_list series)))))
      <$> series.

(** Equal cells: both missing, or equal numbers. *)
Definition num_equiv (a b : num) : Prop :=
  match a, b with
  | NaN, NaN => True
  | Fin x, Fin y => x == y
  | _, _ => False
  end.













(** Outside of that range they do: on the column -2^62, 0, 2^62 the
    greatest difference, 2^63, wraps around to -2^63, and the results are
    0, -1/2 and 1, where the exact model gives 0, 1/2 and 1. *)
Example normalize_int64_wraps :
  let series := [-4611686018427387904; 0; 4611686018427387904]%Z in
  Forall2 num_equiv (normalize_int64 series) [Fin 0; Fin (- (1 # 2)); Fin 1] ∧
  Forall2 num_equiv (_normalize (as_floats series)) [Fin 0; Fin (1 # 2); Fin 1].
Proof. split; repeat constructor; vm_compute; reflexivity. Qed.

(** ** When [score_listings] returns, and what it raises *)


(** X5.  On a non-empty, well-formed input in which one of the keys
    ["price"], ["beds"], ["baths"] occurs in no listing, [score_listings]
    raises [KeyError] for such a key: the filter reads the three columns
    without checking that they exist. *)
Theorem score_listings_KeyError listings prefs :
  well_formed listings → listings ≠ [] →
  ¬ ("price" ∈ all_columns listings ∧ "beds" ∈ all_columns listings ∧
     "baths" ∈ all_columns listings) →
  ∃ c, c ∈ ["price"; "beds"; "baths"] ∧ (c ∉ all_columns listings) ∧
       score_listings listings prefs = Raise (KeyError c).
Proof.
  intros Hwf%pd_DataFrame_numeric Hne Hmiss.
  destruct listings as [|l0 ls]; [done|]. unfold score_listings, hard_filter.
  destruct (decide ("price" ∈ all_columns (l0 :: ls))) as [Hp|Hp].
  2:{ exists "price". split; [repeat constructor|]. split; [done|].
      rewrite (getitem_KeyError _ "price") by exact Hp. reflexivity. }
  destruct (getitem_is_Ok (pd_DataFrame (l0 :: ls)) "price" Hp) as [price ->].
  { intros r s Hr. apply Hwf; [done|]. unfold numeric_columns. repeat constructor. }
  destruct (decide ("beds" ∈ all_columns (l0 :: ls))) as [Hb|Hb].
  2:{ exists "beds". split; [repeat constructor|]. split; [done|].
      rewrite (getitem_KeyError _ "beds") by exact Hb. reflexivity. }
  destruct (getitem_is_Ok (pd_DataFrame (l0 :: ls)) "beds" Hb) as [beds ->].
  { intros r s Hr. apply Hwf; [done|]. unfold numeric_columns. repeat constructor. }
  destruct (decide ("baths" ∈ all_columns (l0 :: ls))) as [Hba|Hba].
  2:{ exists "baths". split; [repeat constructor|]. split; [done|].
      rewrite (getitem_KeyError _ "baths") by exact Hba. reflexivity. }
  by destruct Hmiss.
Qed.

Lemma score_listings_KeyError_witness :
  ∃ c, c ∈ ["price"; "beds"; "baths"] ∧ (c ∉ all_columns no_baths_listings) ∧
       score_listings no_baths_listings negative_max_price = Raise (KeyError c).
Proof.
  apply score_listings_KeyError.
  - intros l c s ->%list_elem_of_singleton Hc E.
    assert (Forall (λ c, ∀ s, ((numeric_listing "1" [("price", 400000); ("beds", 3)]) !! c)
                              ≠ Some (VStr s)) numeric_columns) as Hall.
    { repeat apply Forall_cons_2; try apply Forall_nil_2;
        intros s' E'; vm_compute in E'; discriminate. }
    rewrite Forall_forall in Hall. by apply (Hall c Hc s).
  - discriminate.
  - intros (_ & _ & H).
    assert ("baths" ∉ all_columns no_baths_listings) as Hn; [|done].
    apply (proj1 (bool_decide_eq_false _)). vm_compute. reflexivity.
Defined.

(** ** The listings that are returned *)

(** The bit of the mask of the hard requirements for one listing. *)
Definition passes_b (prefs : preferences) (l : listing) : bool :=
  match to_float (default VNaN (l !! "price")),
        to_float (default VNaN (l !! "beds")),
        to_float (default VNaN (l !! "baths")) with
  | Ok p, Ok b, Ok ba =>
      num_le_bound p (max_price prefs)
      && num_ge b (default 0 (min_beds prefs))
      && num_ge ba (default 0 (min_baths prefs))
  | _, _, _ => false
  end.

Lemma passes_b_iff prefs l : passes_b prefs l = true ↔ passes prefs l.
Proof.
  unfold passes_b, passes. split.
  - destruct (l !! "price") as [[p| |?]|]; simpl; try done;
      destruct (l !! "beds") as [[b| |?]|]; simpl; try done;
      destruct (l !! "baths") as [[ba| |?]|]; simpl; try done;
      rewrite ?andb_false_r; try done.
    intros [[H1 H2]%andb_true_iff H3]%andb_true_iff.
    apply Qle_bool_iff in H2, H3. exists p, b, ba. repeat split; try done.
    intros m Hm. rewrite Hm in H1. by apply Qle_bool_iff.
  - intros (p & b & ba & -> & -> & -> & Hp & Hb & Hba). simpl.
    apply Qle_bool_iff in Hb, Hba. rewrite Hb, Hba, !andb_true_r.
    destruct (max_price prefs) as [m|]; [|done]. simpl.
    apply Qle_bool_iff. by apply Hp.
Qed.

#[global] Instance passes_dec prefs l : Decision (passes prefs l).
Proof.
  destruct (passes_b prefs l) eqn:E; [left|right].
  - by apply passes_b_iff.
  - intros H%passes_b_iff. congruence.
Defined.












(** ** Ranks and keys of the output *)

Lemma output_descending listings prefs out i j ri rj :
  score_listings listings prefs = Ok out →
  (i < j)%nat → out !! i = Some ri → out !! j = Some rj →
  score_of rj <= score_of ri.
Proof.
  intros (S & Hout & _ & Hsorted)%output_shape Hij Hi Hj.
  pose proof (StronglySorted_lookup _ _ _ _ _ _ Hsorted Hij Hi Hj) as Hd.
  apply list_elem_of_lookup_2 in Hi, Hj.
  destruct (Hout ri Hi) as (Hsi & _). destruct (Hout rj Hj) as (Hsj & _).
  unfold by_score_desc, score_cell, cell in Hd. by rewrite Hsi, Hsj in Hd.
Qed.

(** X9.  The first record of a non-empty output has rank 1: the display of
    the callers, which takes the records from the front, starts with the best
    match. *)
Theorem first_record_rank_one listings prefs r out :
  score_listings listings prefs = Ok (r :: out) → rank_of r = 1%nat.
Proof.
  intros H. apply (output_rank_first _ _ _ _ H); [left|].
  intros r' Hr'. apply elem_of_cons in Hr' as [->|Hr']; [apply Qle_refl|].
  apply list_elem_of_lookup in Hr' as [j Hj].
  apply (output_descending _ _ _ 0 (S j) r r' H); [lia|done|done].
Qed.

Lemma first_record_rank_one_witness : rank_of (sample_scored !!! 0%nat) = 1%nat.
Proof.
  apply (first_record_rank_one sample_listings sample_preferences _
           (drop 1 sample_scored)).
  transitivity (Ok sample_scored).
  - unfold sample_scored. apply Ok_match. vm_compute. reflexivity.
  - apply (f_equal Ok).
    apply (drop_S sample_scored (sample_scored !!! 0%nat) 0).
    apply list_lookup_lookup_total_lt. vm_compute. lia.
Defined.

Lemma rank_dense_le_length (s : list Q) (x : Q) :
  x ∈ s → (rank_dense s x ≤ length s)%nat.
Proof.
  intros Hx. rewrite rank_dense_above, <- (length_fmap Qred s).
  change (S (length (above s x))) with (length (Qred x :: above s x)).
  apply submseteq_length, NoDup_submseteq.
  - apply NoDup_cons. split; [|apply NoDup_above].
    intros (w & _ & Hw & E%Qred_eq_inv)%elem_of_above.
    rewrite E in Hw. by apply Qlt_irrefl in Hw.
  - intros z [->|(w & Hw & _ & ->)%elem_of_above]%elem_of_cons;
      apply list_elem_of_fmap; eauto.
Qed.

(** X10.  The ranks of an output are the numbers from 1 to the largest rank,
    without a gap, and no rank exceeds the number of records. *)
Theorem ranks_without_gaps listings prefs out r :
  score_listings listings prefs = Ok out → r ∈ out →
  (rank_of r ≤ length out)%nat ∧
  ∀ n, (1 ≤ n ≤ rank_of r)%nat → ∃ r', r' ∈ out ∧ rank_of r' = n.
Proof.
  intros Hout Hr. split.
  - apply score_listings_Ok in Hout as [[-> _]|(df & sc & Hdf & _ & Hsc & ->)].
    { by apply elem_of_nil in Hr. }
    set (final := final_scores _ _ _) in *.
    assert (length final = length (rows df)) as Hlen.
    { apply final_scores_length. by eapply scores_length. }
    rewrite (Permutation_length (ranked_Permutation df final)).
    assert (length (decorated df final) = length (round2 <$> final)) as ->.
    { unfold decorated. rewrite !length_zip_with, !length_fmap. lia. }
    apply elem_of_ranked in Hr as (i & row & x & _ & Hx & ->).
    rewrite rank_of_scored_record. apply rank_dense_le_length.
    apply list_elem_of_fmap. exists x. split; [done|]. by eapply list_elem_of_lookup_2.
  - apply output_shape in Hout as (S & HS & Hall & _).
    intros n [Hn1 Hn2].
    remember (rank_of r - n)%nat as d eqn:Hd. revert r Hr n Hn1 Hn2 Hd.
    induction d as [|d IH]; intros r Hr n Hn1 Hn2 Hd.
    { exists r. split; [done|lia]. }
    destruct (HS r Hr) as (_ & _ & _ & Hrank).
    destruct (rank_dense_pred S (score_of r)) as (y & Hy & _ & Hpred).
    { rewrite <- Hrank. lia. }
    destruct (Hall y Hy) as (r' & Hr' & <-).
    destruct (HS r' Hr') as (_ & _ & _ & Hrank').
    apply (IH r' Hr' n); lia.
Qed.

Lemma ranks_without_gaps_witness :
  (rank_of (sample_scored !!! 2%nat) ≤ length sample_scored)%nat ∧
  ∀ n, (1 ≤ n ≤ rank_of (sample_scored !!! 2%nat))%nat →
       ∃ r', r' ∈ sample_scored ∧ rank_of r' = n.
Proof.
  apply (ranks_without_gaps sample_listings sample_preferences).
  - unfold sample_scored. apply Ok_match. vm_compute. reflexivity.
  - apply list_elem_of_lookup_total_2. vm_compute. lia.
Defined.

Lemma all_columns_dom (listings : list listing) (l : listing) :
  l ∈ listings → dom l ⊆ all_columns listings.
Proof.
  intros Hl k Hk. unfold all_columns. apply elem_of_union_list.
  exists (dom l). split; [|done]. apply list_elem_of_fmap. by exists l.
Qed.

(** X11.  All the records of an output have the same keys: every key of every
    input listing (also of the listings that were filtered out), and
    ["score"] and ["rank"]. *)
Theorem output_keys listings prefs out r :
  score_listings listings prefs = Ok out → r ∈ out →
  dom r = all_columns listings ∪ {["score"; "rank"]}.
Proof.
  intros [[-> _]|(df & sc & Hdf & _ & _ & ->)]%score_listings_Ok Hr.
  { by apply elem_of_nil in Hr. }
  apply elem_of_ranked in Hr as (i & row & x & Hrow & _ & ->).
  apply list_elem_of_lookup_2 in Hrow.
  destruct (hard_filter_rows_subseteq _ _ _ _ Hdf Hrow) as (l & Hl & ->).
  pose proof (all_columns_dom _ _ Hl) as Hdom.
  unfold scored_record, row_of.
  rewrite !dom_insert_L, dom_union_L, dom_gset_to_gmap.
  apply set_eq. intros k. rewrite !elem_of_union, !elem_of_singleton.
  specialize (Hdom k). tauto.
Qed.

Lemma output_keys_witness :
  dom (sample_scored !!! 1%nat) = all_columns sample_listings ∪ {["score"; "rank"]}.
Proof.
  apply (output_keys sample_listings sample_preferences sample_scored).
  - unfold sample_scored. apply Ok_match. vm_compute. reflexivity.
  - apply list_elem_of_lookup_total_2. vm_compute. lia.
Defined.

(** ** Weights *)

(** The keys of the priorities that the scorer reads in its guards. *)
Definition criteria : list string := ["price"; "location"; "size"; "bedrooms"; "age"].

Lemma inactive df prio col key :
  get_weight prio key <= 0 → active df prio col key = false.
Proof.
  intros H. unfold active. apply andb_false_iff. right.
  destruct (Qlt_bool 0 (get_weight prio key)) eqn:E; [|done].
  apply Qlt_bool_iff in E. exfalso. by apply (Qlt_not_le _ _ E).
Qed.

Lemma scores_no_criterion df prefs sc :
  (∀ k, k ∈ criteria → get_weight (priorities prefs) k <= 0) →
  scores df prefs = Ok sc → sc = [].
Proof.
  intros Hw Hsc. destruct sc as [|[n series] sc]; [done|]. exfalso.
  assert ((n, series) ∈ (n, series) :: sc) as Hin by left.
  destruct (scores_elem_of _ _ _ _ _ Hsc Hin)
    as [(_ & Ha & _)|[(_ & Ha & _)|[(_ & Ha & _)|[(_ & Ha & _)|(_ & Ha & _)]]]];
    rewrite inactive in Ha; try done; apply Hw; unfold criteria; repeat constructor.
Qed.

(** X12.  When no criterion has a positive weight (all weights zero, or no
    priorities at all), every returned record has the score 0 and the rank
    1. *)
Theorem no_active_criterion listings prefs out r :
  (∀ k, k ∈ criteria → get_weight (priorities prefs) k <= 0) →
  score_listings listings prefs = Ok out → r ∈ out →
  r !! "score" = Some (VNum (0 # 100)) ∧ rank_of r = 1%nat.
Proof.
  intros Hw [[-> _]|(df & sc & Hdf & _ & Hsc & ->)]%score_listings_Ok Hr.
  { by apply elem_of_nil in Hr. }
  rewrite (scores_no_criterion _ _ _ Hw Hsc) in Hr.
  change (final_scores (length (rows df)) (priorities prefs) [])
    with (replicate (length (rows df)) (0 : Q)) in Hr.
  apply elem_of_ranked in Hr as (i & row & x & _ & Hx & ->).
  apply lookup_replicate in Hx as [-> _].
  rewrite scored_record_score, rank_of_scored_record. split; [done|].
  apply rank_dense_first.
  intros y (x & -> & [-> _]%elem_of_replicate)%list_elem_of_fmap. apply Qle_refl.
Qed.

Definition sample_scored_unweighted : list (gmap string value) :=
  match score_listings sample_listings (only_priorities [("price", 0)]) with
  | Ok out => out
  | Raise _ => []
  end.

Lemma no_active_criterion_witness :
  (sample_scored_unweighted !!! 0%nat) !! "score" = Some (VNum (0 # 100)) ∧
  rank_of (sample_scored_unweighted !!! 0%nat) = 1%nat.
Proof.
  apply (no_active_criterion sample_listings (only_priorities [("price", 0)])
           sample_scored_unweighted).
  - intros k Hk. unfold criteria in Hk. rewrite !elem_of_cons in Hk.
    destruct Hk as [->|[->|[->|[->|[->|[]%elem_of_nil]]]]]; vm_compute; discriminate.
  - unfold sample_scored_unweighted. apply Ok_match. vm_compute. reflexivity.
  - apply list_elem_of_lookup_total_2. vm_compute. lia.
Defined.

(** ** Bounds on the scores *)

Lemma rint_mono (x y : Q) : x <= y → (rint x ≤ rint y)%Z.
Proof.
  intros Hxy. destruct (Z.le_gt_cases (rint x) (rint y)) as [|Hgt]; [done|].
  exfalso.
  destruct (rint_bound x) as [_ Hx]. destruct (rint_bound y) as [Hy _].
  assert (inject_Z (rint y) + 1 <= inject_Z (rint x)) as Hz.
  { change 1 with (inject_Z 1). rewrite <- inject_Z_plus, <- Zle_Qle. lia. }
  assert (x == y) as E by lra.
  apply rint_proper in E. lia.
Qed.

Lemma round2_mono (x y : Q) : x <= y → round2 x <= round2 y.
Proof.
  intros Hxy. unfold round2, Qle. simpl.
  assert (rint (x * 100) ≤ rint (y * 100))%Z by (apply rint_mono; lra). lia.
Qed.

Lemma Qsum_app (l k : list Q) : Qsum (l ++ k) == Qsum l + Qsum k.
Proof.
  induction l as [|a l IH].
  - change (Qsum ([] ++ k)) with (Qsum k). change (Qsum []) with 0. ring.
  - change (Qsum ((a :: l) ++ k)) with (a + Qsum (l ++ k)).
    change (Qsum (a :: l)) with (a + Qsum l). rewrite IH. ring.
Qed.

(** A component score that enters the weighted sum lies between 0 and
    100. *)
Lemma fillna_inverted_bounds (s : Series) i :
  0 <= fillna 50 (default NaN (inverted (_normalize s) !! i)) ∧
  fillna 50 (default NaN (inverted (_normalize s) !! i)) <= 100.
Proof.
  unfold inverted. rewrite list_lookup_fmap.
  destruct (_normalize s !! i) as [[|x]|] eqn:Hn; simpl; try lra.
  destruct (std_is_zero s) eqn:Hstd.
  - rewrite normalize_constant, list_lookup_fmap in Hn by done.
    destruct (s !! i); simplify_eq/=. lra.
  - destruct (normalize_lookup_inv _ _ _ Hn) as [[|a] Ha].
    { rewrite (normalize_NaN s i Hstd Ha) in Hn. done. }
    destruct (normalize_value s i a x Hstd Ha Hn)
      as (lo & hi & [_ Hl] & [_ Hg] & Hlt & ->).
    assert (a ∈ present s) as Hin.
    { apply elem_of_present. by eapply list_elem_of_lookup_2. }
    pose proof (Hl a Hin). pose proof (Hg a Hin).
    destruct (Qdiv_unit (a - lo) (hi - lo)); lra.
Qed.

Lemma fillna_scaled_bounds (s : Series) i :
  0 <= fillna 50 (default NaN (scaled (_normalize s) !! i)) ∧
  fillna 50 (default NaN (scaled (_normalize s) !! i)) <= 100.
Proof.
  unfold scaled. rewrite list_lookup_fmap.
  destruct (_normalize s !! i) as [[|x]|] eqn:Hn; simpl; try lra.
  destruct (std_is_zero s) eqn:Hstd.
  - rewrite normalize_constant, list_lookup_fmap in Hn by done.
    destruct (s !! i); simplify_eq/=. lra.
  - destruct (normalize_lookup_inv _ _ _ Hn) as [[|a] Ha].
    { rewrite (normalize_NaN s i Hstd Ha) in Hn. done. }
    destruct (normalize_value s i a x Hstd Ha Hn)
      as (lo & hi & [_ Hl] & [_ Hg] & Hlt & ->).
    assert (a ∈ present s) as Hin.
    { apply elem_of_present. by eapply list_elem_of_lookup_2. }
    pose proof (Hl a Hin). pose proof (Hg a Hin).
    destruct (Qdiv_unit (a - lo) (hi - lo)); lra.
Qed.

(** The terms of one guarded block in the weighted sum of row [i]. *)
Lemma component_terms_bounds df prio col key name f c i :
  (∀ s, 0 <= fillna 50 (default NaN (f s !! i)) ∧
        fillna 50 (default NaN (f s !! i)) <= 100) →
  0 <= get_weight prio (weight_key name) →
  get_weight prio (weight_key name) <= get_weight prio key →
  component df prio col key name f = Ok c →
  0 <= Qsum (term prio weight_key i <$> c) ∧
  Qsum (term prio weight_key i <$> c) <= 100 * get_weight prio key.
Proof.
  intros Hf Hw0 Hw [(_ & s & _ & ->)|(_ & ->)]%component_Ok.
  - unfold Qsum, term. simpl. destruct (Hf s) as [H1 H2].
    set (v := fillna 50 (default NaN (f s !! i))) in *.
    set (w := get_weight prio (weight_key name)) in *.
    assert (0 <= v * w) by (by apply Qmult_le_0_compat).
    assert (v * w <= 100 * w) by (by apply Qmult_le_compat_r).
    assert (100 * w <= 100 * get_weight prio key).
    { rewrite !(Qmult_comm 100). apply Qmult_le_compat_r; [done|lra]. }
    lra.
  - unfold Qsum. simpl. lra.
Qed.

(** The sum of the weights of the five criteria. *)
Definition total_weight (prio : gmap string Q) : Q :=
  Qsum (get_weight prio <$> criteria).

Lemma weighted_score_between listings prefs out r :
  (∀ k, k ∈ criteria → 0 <= get_weight (priorities prefs) k) →
  priorities prefs !! "bedroom" = None →
  score_listings listings prefs = Ok out → r ∈ out →
  0 <= score_of r ∧ score_of r <= round2 (100 * total_weight (priorities prefs)).
Proof.
  intros Hw Hb [[-> _]|(df & sc & Hdf & _ & Hsc & ->)]%score_listings_Ok Hr.
  { by apply elem_of_nil in Hr. }
  set (prio := priorities prefs) in *. set (n := length (rows df)) in *.
  pose proof (scores_length _ _ _ Hsc) as Hlens. fold n in Hlens.
  apply elem_of_ranked in Hr as (i & row & x & Hrow & Hx & ->).
  rewrite score_of_scored_record.
  assert (i < n)%nat as Hi by (by eapply lookup_lt_Some).
  destruct (final_scores_lookup n prio sc i Hi Hlens) as (x' & Hx' & Ex).
  assert (x' = x) as -> by congruence.
  apply scores_Ok in Hsc as (c1 & c2 & c3 & c4 & c5 & H1 & H2 & H3 & H4 & H5 & ->).
  fold prio in H1, H2, H3, H4, H5.
  assert (get_weight prio "bedroom" = 0) as Hb0 by (unfold get_weight; by rewrite Hb).
  assert (∀ k, k ∈ criteria → 0 <= get_weight prio k) as Hw' by done.
  pose proof (Hw' "price" ltac:(unfold criteria; repeat constructor)) as Wp.
  pose proof (Hw' "location" ltac:(unfold criteria; repeat constructor)) as Wl.
  pose proof (Hw' "size" ltac:(unfold criteria; repeat constructor)) as Ws.
  pose proof (Hw' "bedrooms" ltac:(unfold criteria; repeat constructor)) as Wb.
  pose proof (Hw' "age" ltac:(unfold criteria; repeat constructor)) as Wa.
  eapply (component_terms_bounds _ _ _ _ _ _ _ i) in H1 as [L1 U1];
    [|intros s; apply fillna_inverted_bounds|exact Wp|apply Qle_refl].
  eapply (component_terms_bounds _ _ _ _ _ _ _ i) in H2 as [L2 U2];
    [|intros s; apply fillna_inverted_bounds|exact Wl|apply Qle_refl].
  eapply (component_terms_bounds _ _ _ _ _ _ _ i) in H3 as [L3 U3];
    [|intros s; apply fillna_scaled_bounds|exact Ws|apply Qle_refl].
  eapply (component_terms_bounds _ _ _ _ _ _ _ i) in H4 as [L4 U4];
    [|intros s; apply fillna_inverted_bounds
     |change (weight_key "bedroom_score") with "bedroom"; rewrite Hb0; apply Qle_refl
     |change (weight_key "bedroom_score") with "bedroom"; by rewrite Hb0].
  eapply (component_terms_bounds _ _ _ _ _ _ _ i) in H5 as [L5 U5];
    [|intros s; apply fillna_inverted_bounds|exact Wa|apply Qle_refl].
  rewrite !fmap_app, !Qsum_app in Ex.
  assert (total_weight prio ==
          get_weight prio "price" + get_weight prio "location" + get_weight prio "size"
          + get_weight prio "bedrooms" + get_weight prio "age") as EW.
  { unfold total_weight, criteria, Qsum. simpl. ring. }
  split.
  - apply Qle_trans with (round2 0); [vm_compute; discriminate|].
    apply round2_mono. lra.
  - apply round2_mono. rewrite EW. lra.
Qed.

(** X13.  For listings and preferences in the range of [moderate], when
    the weights are between 0 and 1 (and the priorities have no key
    ["bedroom"]), every score lies between 0 and 100 times the sum of the
    weights, within one hundredth. *)
Theorem score_bounds listings prefs out r :
  moderate_listings listings → moderate_preferences prefs →
  (∀ k, k ∈ criteria → 0 <= get_weight (priorities prefs) k ∧
                        get_weight (priorities prefs) k <= 1) →
  priorities prefs !! "bedroom" = None →
  score_listings listings prefs = Ok out → r ∈ out →
  0 <= score_of r ∧
  score_of r <= 100 * total_weight (priorities prefs) + (1 # 100).
Proof.
  intros _ _ Hw Hnone Hout Hr.
  destruct (weighted_score_between listings prefs out r) as [H0 H1]; try done.
  { intros k Hk. by apply Hw. }
  split; [done|]. eapply Qle_trans; [exact H1|].
  pose proof (round2_bound (100 * total_weight (priorities prefs))) as Hb.
  apply Qabs_Qle_condition in Hb as [_ Hb]. lra.
Qed.

Lemma score_bounds_witness :
  0 <= score_of (sample_scored !!! 0%nat) ∧
  score_of (sample_scored !!! 0%nat)
  <= 100 * total_weight (priorities sample_preferences) + (1 # 100).
Proof.
  apply (score_bounds sample_listings sample_preferences sample_scored).
  - exact sample_listings_moderate.
  - apply (bool_decide_unpack _). vm_compute. exact I.
  - intros k Hk. unfold criteria in Hk. rewrite !elem_of_cons in Hk.
    destruct Hk as [->|[->|[->|[->|[->|[]%elem_of_nil]]]]];
      split; vm_compute; discriminate.
  - vm_compute. reflexivity.
  - unfold sample_scored. apply Ok_match. vm_compute. reflexivity.
  - apply list_elem_of_lookup_total_2. vm_compute. lia.
Defined.

(** ** The weight of the bedrooms criterion *)

(** The preferences without the key ["bedrooms"] in the priorities. *)
Definition without_bedrooms (prefs : preferences) : preferences :=
  {| max_price := max_price prefs; min_beds := min_beds prefs;
     min_baths := min_baths prefs;
     priorities := delete "bedrooms" (priorities prefs) |}.

Lemma get_weight_delete (prio : gmap string Q) k k' :
  k ≠ k' → get_weight (delete k prio) k' = get_weight prio k'.
Proof. intros H. unfold get_weight. by rewrite lookup_delete_ne. Qed.

Lemma component_delete df (prio : gmap string Q) col key name f :
  key ≠ "bedrooms" →
  component df (delete "bedrooms" prio) col key name f
  = component df prio col key name f.
Proof.
  intros H. unfold component, active. by rewrite get_weight_delete.
Qed.

Lemma component_terms_delete df (prio : gmap string Q) col key name f c i :
  weight_key name ≠ "bedrooms" →
  component df prio col key name f = Ok c →
  Qsum (term (delete "bedrooms" prio) weight_key i <$> c)
  == Qsum (term prio weight_key i <$> c).
Proof.
  intros Hk [(_ & s & _ & ->)|(_ & ->)]%component_Ok; [|reflexivity].
  unfold Qsum, term. simpl. rewrite get_weight_delete by done. reflexivity.
Qed.

Lemma component_bedroom_terms df (prio : gmap string Q) col key f c i :
  prio !! "bedroom" = None →
  component df prio col key "bedroom_score" f = Ok c →
  Qsum (term prio weight_key i <$> c) == 0.
Proof.
  intros Hb [(_ & s & _ & ->)|(_ & ->)]%component_Ok; [|reflexivity].
  unfold Qsum, term. simpl. change (weight_key "bedroom_score") with "bedroom".
  unfold get_weight. rewrite Hb. simpl. ring.
Qed.

Lemma ranked_ext df final final' :
  round2 <$> final = round2 <$> final' → ranked df final = ranked df final'.
Proof. intros H. unfold ranked. by rewrite H. Qed.

Lemma final_scores_round_ext n prio prio' sc sc' :
  Forall (λ cs : string * Series, length cs.2 = n) sc →
  Forall (λ cs : string * Series, length cs.2 = n) sc' →
  (∀ i, Qsum (term prio weight_key i <$> sc) == Qsum (term prio' weight_key i <$> sc')) →
  round2 <$> final_scores n prio sc = round2 <$> final_scores n prio' sc'.
Proof.
  intros Hsc Hsc' Hsum. apply list_eq. intros i. rewrite !list_lookup_fmap.
  destruct (decide (i < n)%nat) as [Hi|Hi].
  - destruct (final_scores_lookup n prio sc i Hi Hsc) as (x & -> & Ex).
    destruct (final_scores_lookup n prio' sc' i Hi Hsc') as (x' & -> & Ex').
    simpl. f_equal. apply round2_proper. by rewrite Ex, Ex', Hsum.
  - rewrite !lookup_ge_None_2; [done| |]; rewrite final_scores_length by done; lia.
Qed.

(** X14.  The weight given to ["bedrooms"] has no effect on the result: the
    loop looks the weight of the column ["bedroom_score"] up under
    ["bedroom"], so, unless the priorities carry that key, the bedroom
    component is multiplied by 0 and the scorer returns what it returns
    without the bedrooms criterion. *)
Theorem bedrooms_weight_ignored listings prefs :
  priorities prefs !! "bedroom" = None →
  score_listings listings prefs = score_listings listings (without_bedrooms prefs).
Proof.
  intros Hb. unfold score_listings. destruct listings as [|l0 ls]; [done|].
  change (hard_filter (l0 :: ls) (without_bedrooms prefs))
    with (hard_filter (l0 :: ls) prefs).
  destruct (hard_filter (l0 :: ls) prefs) as [df|e] eqn:Hdf; [|done]. simpl.
  destruct (rows df) as [|r0 rs] eqn:Hrows; [done|]. rewrite <- Hrows.
  assert (∃ beds, getitem df "beds" = Ok beds) as [beds Hbeds].
  { apply getitem_is_Ok.
    - by apply hard_filter_Ok in Hdf as (_ & (_ & ? & _) & _).
    - intros r s Hr E. destruct (hard_filter_beds _ _ _ _ Hdf Hr) as [b Hbv].
      rewrite (cell_lookup _ _ _ Hbv) in E. done. }
  unfold scores. change (priorities (without_bedrooms prefs))
    with (delete "bedrooms" (priorities prefs)).
  change (target_beds (without_bedrooms prefs)) with (target_beds prefs).
  set (prio := priorities prefs) in *.
  rewrite (component_delete df prio "price" "price") by done.
  rewrite (component_delete df prio "distance_to_downtown" "location") by done.
  rewrite (component_delete df prio "sqft" "size") by done.
  rewrite (component_delete df prio "year_built" "age") by done.
  destruct (component df prio "price" "price" "price_score" _)
    as [c1|e] eqn:H1; [|done]. simpl.
  destruct (component df prio "distance_to_downtown" "location" "location_score" _)
    as [c2|e] eqn:H2; [|done]. simpl.
  destruct (component df prio "sqft" "size" "size_score" _)
    as [c3|e] eqn:H3; [|done]. simpl.
  assert (component df (delete "bedrooms" prio) "beds" "bedrooms" "bedroom_score"
            (λ beds, inverted (_normalize (bed_diff beds (target_beds prefs))))
          = Ok []) as ->.
  { unfold component. rewrite inactive; [done|].
    unfold get_weight. rewrite lookup_delete_eq. simpl. apply Qle_refl. }
  assert (∃ c4, component df prio "beds" "bedrooms" "bedroom_score"
            (λ beds, inverted (_normalize (bed_diff beds (target_beds prefs))))
          = Ok c4) as [c4 H4].
  { unfold component. destruct (active df prio "beds" "bedrooms"); [|by eexists].
    rewrite Hbeds. simpl. by eexists. }
  rewrite H4. simpl.
  destruct (component df prio "year_built" "age" "age_score" _)
    as [c5|e] eqn:H5; [|done]. simpl. f_equal.
  apply ranked_ext.
  pose proof (component_length _ _ _ _ _ _ _
                (λ s, eq_trans (inverted_length _) (normalize_length s)) H1) as L1.
  pose proof (component_length _ _ _ _ _ _ _
                (λ s, eq_trans (inverted_length _) (normalize_length s)) H2) as L2.
  pose proof (component_length _ _ _ _ _ _ _
                (λ s, eq_trans (scaled_length _) (normalize_length s)) H3) as L3.
  assert (Forall (λ cs : string * Series, length cs.2 = length (rows df)) c4) as L4.
  { eapply component_length; [|exact H4]. intros s. simpl.
    unfold bed_diff. by rewrite inverted_length, normalize_length, length_fmap. }
  assert (Forall (λ cs : string * Series, length cs.2 = length (rows df)) c5) as L5.
  { eapply component_length; [|exact H5]. intros s. simpl.
    unfold age. by rewrite inverted_length, normalize_length, length_fmap. }
  apply final_scores_round_ext.
  - repeat apply Forall_app_2; done.
  - repeat apply Forall_app_2; done || constructor.
  - intros i. rewrite !fmap_app, !Qsum_app.
    rewrite (component_terms_delete _ _ _ _ "price_score" _ _ i
               ltac:(vm_compute; discriminate) H1).
    rewrite (component_terms_delete _ _ _ _ "location_score" _ _ i
               ltac:(vm_compute; discriminate) H2).
    rewrite (component_terms_delete _ _ _ _ "size_score" _ _ i
               ltac:(vm_compute; discriminate) H3).
    rewrite (component_terms_delete _ _ _ _ "age_score" _ _ i
               ltac:(vm_compute; discriminate) H5).
    rewrite (component_bedroom_terms _ _ _ _ _ _ i Hb H4).
    change (Qsum (term (delete "bedrooms" prio) weight_key i <$> [])) with 0. ring.
Qed.

Lemma bedrooms_weight_ignored_witness :
  score_listings sample_listings sample_preferences
  = score_listings sample_listings (without_bedrooms sample_preferences).
Proof. apply bedrooms_weight_ignored. vm_compute. reflexivity. Defined.

(** ** Price as the only criterion *)

(** The inverted component prefers the smaller value. *)
Lemma inverted_antitone (s : Series) i j a b :
  s !! i = Some (Fin a) → s !! j = Some (Fin b) → a <= b →
  fillna 50 (default NaN (inverted (_normalize s) !! j))
  <= fillna 50 (default NaN (inverted (_normalize s) !! i)).
Proof.
  intros Ha Hb Hab. unfold inverted. rewrite !list_lookup_fmap.
  destruct (std_is_zero s) eqn:Hstd.
  { rewrite normalize_constant, !list_lookup_fmap, Ha, Hb by done. simpl. lra. }
  rewrite (normalize_general s i _ Hstd Ha), (normalize_general s j _ Hstd Hb).
  assert (a ∈ present s) as Hina
    by (apply elem_of_present; by eapply list_elem_of_lookup_2).
  assert (b ∈ present s) as Hinb
    by (apply elem_of_present; by eapply list_elem_of_lookup_2).
  assert (present s ≠ []) as Hne.
  { intros E. rewrite E in Hina. by apply elem_of_nil in Hina. }
  destruct (series_min_least s Hne) as (lo & -> & [_ Hl]).
  destruct (series_max_greatest s Hne) as (hi & -> & [_ Hg]).
  simpl. destruct (Qeq_bool (hi - lo) 0) eqn:E; simpl; [lra|].
  apply Qeq_bool_neq in E.
  pose proof (Hl a Hina). pose proof (Hg a Hina).
  assert (0 < hi - lo) as Hd.
  { apply Qnot_le_lt. intros Hle. apply E. lra. }
  pose proof (Qdiv_le_mono (a - lo) (b - lo) (hi - lo) Hd ltac:(lra)). lra.
Qed.

Lemma component_inactive df prio col key name f c :
  get_weight prio key <= 0 → component df prio col key name f = Ok c → c = [].
Proof.
  intros Hw [(Ha & _)|(_ & ->)]%component_Ok; [|done].
  rewrite inactive in Ha; done.
Qed.

(** X15.  For listings and preferences in the range of [moderate]: when price is the only
    criterion with a positive weight, a cheaper listing never scores below a
    dearer one and never ranks behind it. *)
Theorem cheaper_scores_higher listings prefs out r1 r2 p1 p2 :
  moderate_listings listings → moderate_preferences prefs →
  (∀ k, k ∈ ["location"; "size"; "bedrooms"; "age"] →
        get_weight (priorities prefs) k <= 0) →
  score_listings listings prefs = Ok out → r1 ∈ out → r2 ∈ out →
  r1 !! "price" = Some (VNum p1) → r2 !! "price" = Some (VNum p2) → p1 <= p2 →
  score_of r2 <= score_of r1 ∧ (rank_of r1 ≤ rank_of r2)%nat.
Proof.
  intros _ _ Hw [[-> _]|(df & sc & Hdf & _ & Hsc & ->)]%score_listings_Ok Hr1 Hr2 Hp1 Hp2 Hp.
  { by apply elem_of_nil in Hr1. }
  set (prio := priorities prefs) in *. set (n := length (rows df)) in *.
  pose proof (scores_length _ _ _ Hsc) as Hlens. fold n in Hlens.
  apply elem_of_ranked in Hr1 as (i & row1 & x1 & Hrow1 & Hx1 & ->).
  apply elem_of_ranked in Hr2 as (j & row2 & x2 & Hrow2 & Hx2 & ->).
  rewrite !score_of_scored_record, !rank_of_scored_record.
  assert (x2 <= x1) as Hx; [|split; [by apply round2_mono|]].
  2:{ apply rank_dense_mono. by apply round2_mono. }
  unfold scored_record in Hp1, Hp2. rewrite !lookup_insert_ne in Hp1, Hp2 by done.
  assert (i < n)%nat as Hi by (by eapply lookup_lt_Some).
  assert (j < n)%nat as Hj by (by eapply lookup_lt_Some).
  destruct (final_scores_lookup n prio sc i Hi Hlens) as (x1' & Hx1' & E1).
  destruct (final_scores_lookup n prio sc j Hj Hlens) as (x2' & Hx2' & E2).
  assert (x1' = x1) as -> by congruence. assert (x2' = x2) as -> by congruence.
  rewrite E1, E2. clear E1 E2.
  apply scores_Ok in Hsc as (c1 & c2 & c3 & c4 & c5 & H1 & H2 & H3 & H4 & H5 & ->).
  fold prio in H1, H2, H3, H4, H5.
  apply component_inactive in H2 as ->; [|apply Hw; repeat constructor].
  apply component_inactive in H3 as ->; [|apply Hw; repeat constructor].
  apply component_inactive in H4 as ->; [|apply Hw; repeat constructor].
  apply component_inactive in H5 as ->; [|apply Hw; repeat constructor].
  rewrite !app_nil_r.
  apply component_Ok in H1 as [(Ha & price & Hprice & ->)|(_ & ->)]; [|apply Qle_refl].
  apply active_weight in Ha.
  destruct (getitem_lookup _ _ _ _ _ Hprice Hrow1) as (a & Ha1 & Hf1).
  destruct (getitem_lookup _ _ _ _ _ Hprice Hrow2) as (b & Hb1 & Hf2).
  rewrite (cell_lookup _ _ _ Hp1) in Hf1. rewrite (cell_lookup _ _ _ Hp2) in Hf2.
  simpl in Hf1, Hf2. simplify_eq.
  pose proof (inverted_antitone price i j p1 p2 Ha1 Hb1 Hp) as Hv.
  unfold Qsum, term. simpl. change (weight_key "price_score") with "price".
  set (w := get_weight prio "price") in *.
  apply Qplus_le_l. apply Qmult_le_compat_r; [done|]. by apply Qlt_le_weak.
Qed.

Definition sample_scored_by_price : list (gmap string value) :=
  match score_listings sample_listings (only_priorities [("price", 1)]) with
  | Ok out => out
  | Raise _ => []
  end.

Lemma cheaper_scores_higher_witness :
  score_of (sample_scored_by_price !!! 1%nat)
  <= score_of (sample_scored_by_price !!! 0%nat) ∧
  (rank_of (sample_scored_by_price !!! 0%nat)
   ≤ rank_of (sample_scored_by_price !!! 1%nat))%nat.
Proof.
  apply (cheaper_scores_higher sample_listings (only_priorities [("price", 1)])
           sample_scored_by_price _ _ 350000 400000).
  - exact sample_listings_moderate.
  - apply (bool_decide_unpack _). vm_compute. exact I.
  - intros k Hk. rewrite !elem_of_cons in Hk.
    destruct Hk as [->|[->|[->|[->|[]%elem_of_nil]]]]; vm_compute; discriminate.
  - unfold sample_scored_by_price. apply Ok_match. vm_compute. reflexivity.
  - apply list_elem_of_lookup_total_2. vm_compute. lia.
  - apply list_elem_of_lookup_total_2. vm_compute. lia.
  - vm_compute. reflexivity.
  - vm_compute. reflexivity.
  - vm_compute. discriminate.
Defined.

(** ** Age as the only criterion *)

(** The year that the age block uses for a record:
    [df["year_built"].fillna(1900)]. *)
Definition year_built_or_1900 (r : gmap string value) : Q :=
  match cell r "year_built" with
  | VNum y => y
  | _ => 1900
  end.

(** X16.  For listings and preferences in the range of [moderate]: when age is the only
    criterion with a positive weight, a newer listing never scores below an
    older one and never ranks behind it, a listing without ["year_built"]
    counting as built in 1900. *)
Theorem newer_scores_higher listings prefs out r1 r2 :
  moderate_listings listings → moderate_preferences prefs →
  (∀ k, k ∈ ["price"; "location"; "size"; "bedrooms"] →
        get_weight (priorities prefs) k <= 0) →
  score_listings listings prefs = Ok out → r1 ∈ out → r2 ∈ out →
  year_built_or_1900 r2 <= year_built_or_1900 r1 →
  score_of r2 <= score_of r1 ∧ (rank_of r1 ≤ rank_of r2)%nat.
Proof.
  intros _ _ Hw [[-> _]|(df & sc & Hdf & _ & Hsc & ->)]%score_listings_Ok Hr1 Hr2 Hy.
  { by apply elem_of_nil in Hr1. }
  set (prio := priorities prefs) in *. set (n := length (rows df)) in *.
  pose proof (scores_length _ _ _ Hsc) as Hlens. fold n in Hlens.
  apply elem_of_ranked in Hr1 as (i & row1 & x1 & Hrow1 & Hx1 & ->).
  apply elem_of_ranked in Hr2 as (j & row2 & x2 & Hrow2 & Hx2 & ->).
  rewrite !score_of_scored_record, !rank_of_scored_record.
  assert (x2 <= x1) as Hx; [|split; [by apply round2_mono|]].
  2:{ apply rank_dense_mono. by apply round2_mono. }
  unfold year_built_or_1900, cell, scored_record in Hy.
  rewrite !lookup_insert_ne in Hy by done.
  fold (cell row1 "year_built") (cell row2 "year_built") in Hy.
  assert (i < n)%nat as Hi by (by eapply lookup_lt_Some).
  assert (j < n)%nat as Hj by (by eapply lookup_lt_Some).
  destruct (final_scores_lookup n prio sc i Hi Hlens) as (x1' & Hx1' & E1).
  destruct (final_scores_lookup n prio sc j Hj Hlens) as (x2' & Hx2' & E2).
  assert (x1' = x1) as -> by congruence. assert (x2' = x2) as -> by congruence.
  rewrite E1, E2. clear E1 E2.
  apply scores_Ok in Hsc as (c1 & c2 & c3 & c4 & c5 & H1 & H2 & H3 & H4 & H5 & ->).
  fold prio in H1, H2, H3, H4, H5.
  apply component_inactive in H1 as ->; [|apply Hw; repeat constructor].
  apply component_inactive in H2 as ->; [|apply Hw; repeat constructor].
  apply component_inactive in H3 as ->; [|apply Hw; repeat constructor].
  apply component_inactive in H4 as ->; [|apply Hw; repeat constructor].
  rewrite !app_nil_l.
  apply component_Ok in H5 as [(Ha & years & Hyears & ->)|(_ & ->)]; [|apply Qle_refl].
  apply active_weight in Ha.
  destruct (getitem_lookup _ _ _ _ _ Hyears Hrow1) as (a & Ha1 & Hf1).
  destruct (getitem_lookup _ _ _ _ _ Hyears Hrow2) as (b & Hb1 & Hf2).
  assert (age years !! i = Some (Fin (2024 - year_built_or_1900 row1))) as Hage1.
  { unfold age, year_built_or_1900. rewrite list_lookup_fmap, Ha1. simpl.
    destruct (cell row1 "year_built"); simpl in Hf1; by simplify_eq. }
  assert (age years !! j = Some (Fin (2024 - year_built_or_1900 row2))) as Hage2.
  { unfold age, year_built_or_1900. rewrite list_lookup_fmap, Hb1. simpl.
    destruct (cell row2 "year_built"); simpl in Hf2; by simplify_eq. }
  assert (2024 - year_built_or_1900 row1 <= 2024 - year_built_or_1900 row2) as Hle.
  { unfold year_built_or_1900. lra. }
  pose proof (inverted_antitone (age years) i j _ _ Hage1 Hage2 Hle) as Hv.
  unfold Qsum, term. simpl. change (weight_key "age_score") with "age".
  set (w := get_weight prio "age") in *.
  apply Qplus_le_l. apply Qmult_le_compat_r; [done|]. by apply Qlt_le_weak.
Qed.

Definition year_gap_scored : list (gmap string value) :=
  match score_listings year_gap_listings (only_priorities [("age", 1)]) with
  | Ok out => out
  | Raise _ => []
  end.

Lemma newer_scores_higher_witness :
  score_of (year_gap_scored !!! 1%nat) <= score_of (year_gap_scored !!! 0%nat) ∧
  (rank_of (year_gap_scored !!! 0%nat) ≤ rank_of (year_gap_scored !!! 1%nat))%nat.
Proof.
  apply (newer_scores_higher year_gap_listings (only_priorities [("age", 1)])
           year_gap_scored).
  - exact year_gap_listings_moderate.
  - apply (bool_decide_unpack _). vm_compute. exact I.
  - intros k Hk. rewrite !elem_of_cons in Hk.
    destruct Hk as [->|[->|[->|[->|[]%elem_of_nil]]]]; vm_compute; discriminate.
  - unfold year_gap_scored. apply Ok_match. vm_compute. reflexivity.
  - apply list_elem_of_lookup_total_2. vm_compute. lia.
  - apply list_elem_of_lookup_total_2. vm_compute. lia.
  - vm_compute. discriminate.
Defined.

(** ** Size or distance as the only criterion *)

(** The scaled component prefers the larger value. *)
Lemma scaled_monotone (s : Series) i j a b :
  s !! i = Some (Fin a) → s !! j = Some (Fin b) → a <= b →
  fillna 50 (default NaN (scaled (_normalize s) !! i))
  <= fillna 50 (default NaN (scaled (_normalize s) !! j)).
Proof.
  intros Ha Hb Hab. unfold scaled. rewrite !list_lookup_fmap.
  destruct (std_is_zero s) eqn:Hstd.
  { rewrite normalize_constant, !list_lookup_fmap, Ha, Hb by done. simpl. lra. }
  rewrite (normalize_general s i _ Hstd Ha), (normalize_general s j _ Hstd Hb).
  assert (a ∈ present s) as Hina
    by (apply elem_of_present; by eapply list_elem_of_lookup_2).
  assert (present s ≠ []) as Hne.
  { intros E. rewrite E in Hina. by apply elem_of_nil in Hina. }
  destruct (series_min_least s Hne) as (lo & -> & [_ Hl]).
  destruct (series_max_greatest s Hne) as (hi & -> & [_ Hg]).
  simpl. destruct (Qeq_bool (hi - lo) 0) eqn:E; simpl; [lra|].
  apply Qeq_bool_neq in E.
  pose proof (Hl a Hina). pose proof (Hg a Hina).
  assert (0 < hi - lo) as Hd.
  { apply Qnot_le_lt. intros Hle. apply E. lra. }
  pose proof (Qdiv_le_mono (a - lo) (b - lo) (hi - lo) Hd ltac:(lra)). lra.
Qed.

(** X17.  For listings and preferences in the range of [moderate]: when size is the only
    criterion with a positive weight, of two returned listings that both
    carry ["sqft"] the larger one never scores below the smaller one and never
    ranks behind it. *)
Theorem larger_scores_higher listings prefs out r1 r2 s1 s2 :
  moderate_listings listings → moderate_preferences prefs →
  (∀ k, k ∈ ["price"; "location"; "bedrooms"; "age"] →
        get_weight (priorities prefs) k <= 0) →
  score_listings listings prefs = Ok out → r1 ∈ out → r2 ∈ out →
  r1 !! "sqft" = Some (VNum s1) → r2 !! "sqft" = Some (VNum s2) → s2 <= s1 →
  score_of r2 <= score_of r1 ∧ (rank_of r1 ≤ rank_of r2)%nat.
Proof.
  intros _ _ Hw [[-> _]|(df & sc & Hdf & _ & Hsc & ->)]%score_listings_Ok Hr1 Hr2 Hs1 Hs2 Hs.
  { by apply elem_of_nil in Hr1. }
  set (prio := priorities prefs) in *. set (n := length (rows df)) in *.
  pose proof (scores_length _ _ _ Hsc) as Hlens. fold n in Hlens.
  apply elem_of_ranked in Hr1 as (i & row1 & x1 & Hrow1 & Hx1 & ->).
  apply elem_of_ranked in Hr2 as (j & row2 & x2 & Hrow2 & Hx2 & ->).
  rewrite !score_of_scored_record, !rank_of_scored_record.
  assert (x2 <= x1) as Hx; [|split; [by apply round2_mono|]].
  2:{ apply rank_dense_mono. by apply round2_mono. }
  unfold scored_record in Hs1, Hs2. rewrite !lookup_insert_ne in Hs1, Hs2 by done.
  assert (i < n)%nat as Hi by (by eapply lookup_lt_Some).
  assert (j < n)%nat as Hj by (by eapply lookup_lt_Some).
  destruct (final_scores_lookup n prio sc i Hi Hlens) as (x1' & Hx1' & E1).
  destruct (final_scores_lookup n prio sc j Hj Hlens) as (x2' & Hx2' & E2).
  assert (x1' = x1) as -> by congruence. assert (x2' = x2) as -> by congruence.
  rewrite E1, E2. clear E1 E2.
  apply scores_Ok in Hsc as (c1 & c2 & c3 & c4 & c5 & H1 & H2 & H3 & H4 & H5 & ->).
  fold prio in H1, H2, H3, H4, H5.
  apply component_inactive in H1 as ->; [|apply Hw; repeat constructor].
  apply component_inactive in H2 as ->; [|apply Hw; repeat constructor].
  apply component_inactive in H4 as ->; [|apply Hw; repeat constructor].
  apply component_inactive in H5 as ->; [|apply Hw; repeat constructor].
  rewrite !app_nil_l, !app_nil_r.
  apply component_Ok in H3 as [(Ha & sqft & Hsqft & ->)|(_ & ->)]; [|apply Qle_refl].
  apply active_weight in Ha.
  destruct (getitem_lookup _ _ _ _ _ Hsqft Hrow1) as (a & Ha1 & Hf1).
  destruct (getitem_lookup _ _ _ _ _ Hsqft Hrow2) as (b & Hb1 & Hf2).
  rewrite (cell_lookup _ _ _ Hs1) in Hf1. rewrite (cell_lookup _ _ _ Hs2) in Hf2.
  simpl in Hf1, Hf2. simplify_eq.
  pose proof (scaled_monotone sqft j i s2 s1 Hb1 Ha1 Hs) as Hv.
  unfold Qsum, term. simpl. change (weight_key "size_score") with "size".
  set (w := get_weight prio "size") in *.
  apply Qplus_le_l. apply Qmult_le_compat_r; [done|]. by apply Qlt_le_weak.
Qed.

Definition sample_scored_by_size : list (gmap string value) :=
  match score_listings sample_listings (only_priorities [("size", 1)]) with
  | Ok out => out
  | Raise _ => []
  end.

Lemma larger_scores_higher_witness :
  score_of (sample_scored_by_size !!! 1%nat)
  <= score_of (sample_scored_by_size !!! 0%nat) ∧
  (rank_of (sample_scored_by_size !!! 0%nat)
   ≤ rank_of (sample_scored_by_size !!! 1%nat))%nat.
Proof.
  apply (larger_scores_higher sample_listings (only_priorities [("size", 1)])
           sample_scored_by_size _ _ 2200 2000).
  - exact sample_listings_moderate.
  - apply (bool_decide_unpack _). vm_compute. exact I.
  - intros k Hk. rewrite !elem_of_cons in Hk.
    destruct Hk as [->|[->|[->|[->|[]%elem_of_nil]]]]; vm_compute; discriminate.
  - unfold sample_scored_by_size. apply Ok_match. vm_compute. reflexivity.
  - apply list_elem_of_lookup_total_2. vm_compute. lia.
  - apply list_elem_of_lookup_total_2. vm_compute. lia.
  - vm_compute. reflexivity.
  - vm_compute. reflexivity.
  - vm_compute. discriminate.
Defined.

(** X18.  For listings and preferences in the range of [moderate]: when the distance to
    downtown is the only criterion with a positive weight, of two returned
    listings that both carry ["distance_to_downtown"] the closer one never
    scores below the other one and never ranks behind it. *)
Theorem closer_scores_higher listings prefs out r1 r2 d1 d2 :
  moderate_listings listings → moderate_preferences prefs →
  (∀ k, k ∈ ["price"; "size"; "bedrooms"; "age"] →
        get_weight (priorities prefs) k <= 0) →
  score_listings listings prefs = Ok out → r1 ∈ out → r2 ∈ out →
  r1 !! "distance_to_downtown" = Some (VNum d1) →
  r2 !! "distance_to_downtown" = Some (VNum d2) → d1 <= d2 →
  score_of r2 <= score_of r1 ∧ (rank_of r1 ≤ rank_of r2)%nat.
Proof.
  intros _ _ Hw [[-> _]|(df & sc & Hdf & _ & Hsc & ->)]%score_listings_Ok Hr1 Hr2 Hd1 Hd2 Hd.
  { by apply elem_of_nil in Hr1. }
  set (prio := priorities prefs) in *. set (n := length (rows df)) in *.
  pose proof (scores_length _ _ _ Hsc) as Hlens. fold n in Hlens.
  apply elem_of_ranked in Hr1 as (i & row1 & x1 & Hrow1 & Hx1 & ->).
  apply elem_of_ranked in Hr2 as (j & row2 & x2 & Hrow2 & Hx2 & ->).
  rewrite !score_of_scored_record, !rank_of_scored_record.
  assert (x2 <= x1) as Hx; [|split; [by apply round2_mono|]].
  2:{ apply rank_dense_mono. by apply round2_mono. }
  unfold scored_record in Hd1, Hd2. rewrite !lookup_insert_ne in Hd1, Hd2 by done.
  assert (i < n)%nat as Hi by (by eapply lookup_lt_Some).
  assert (j < n)%nat as Hj by (by eapply lookup_lt_Some).
  destruct (final_scores_lookup n prio sc i Hi Hlens) as (x1' & Hx1' & E1).
  destruct (final_scores_lookup n prio sc j Hj Hlens) as (x2' & Hx2' & E2).
  assert (x1' = x1) as -> by congruence. assert (x2' = x2) as -> by congruence.
  rewrite E1, E2. clear E1 E2.
  apply scores_Ok in Hsc as (c1 & c2 & c3 & c4 & c5 & H1 & H2 & H3 & H4 & H5 & ->).
  fold prio in H1, H2, H3, H4, H5.
  apply component_inactive in H1 as ->; [|apply Hw; repeat constructor].
  apply component_inactive in H3 as ->; [|apply Hw; repeat constructor].
  apply component_inactive in H4 as ->; [|apply Hw; repeat constructor].
  apply component_inactive in H5 as ->; [|apply Hw; repeat constructor].
  rewrite !app_nil_l, !app_nil_r.
  apply component_Ok in H2 as [(Ha & dist & Hdist & ->)|(_ & ->)]; [|apply Qle_refl].
  apply active_weight in Ha.
  destruct (getitem_lookup _ _ _ _ _ Hdist Hrow1) as (a & Ha1 & Hf1).
  destruct (getitem_lookup _ _ _ _ _ Hdist Hrow2) as (b & Hb1 & Hf2).
  rewrite (cell_lookup _ _ _ Hd1) in Hf1. rewrite (cell_lookup _ _ _ Hd2) in Hf2.
  simpl in Hf1, Hf2. simplify_eq.
  pose proof (inverted_antitone dist i j d1 d2 Ha1 Hb1 Hd) as Hv.
  unfold Qsum, term. simpl. change (weight_key "location_score") with "location".
  set (w := get_weight prio "location") in *.
  apply Qplus_le_l. apply Qmult_le_compat_r; [done|]. by apply Qlt_le_weak.
Qed.

Definition sample_scored_by_location : list (gmap string value) :=
  match score_listings sample_listings (only_priorities [("location", 1)]) with
  | Ok out => out
  | Raise _ => []
  end.

Lemma closer_scores_higher_witness :
  score_of (sample_scored_by_location !!! 1%nat)
  <= score_of (sample_scored_by_location !!! 0%nat) ∧
  (rank_of (sample_scored_by_location !!! 0%nat)
   ≤ rank_of (sample_scored_by_location !!! 1%nat))%nat.
Proof.
  apply (closer_scores_higher sample_listings (only_priorities [("location", 1)])
           sample_scored_by_location _ _ 3 5).
  - exact sample_listings_moderate.
  - apply (bool_decide_unpack _). vm_compute. exact I.
  - intros k Hk. rewrite !elem_of_cons in Hk.
    destruct Hk as [->|[->|[->|[->|[]%elem_of_nil]]]]; vm_compute; discriminate.
  - unfold sample_scored_by_location. apply Ok_match. vm_compute. reflexivity.
  - apply list_elem_of_lookup_total_2. vm_compute. lia.
  - apply list_elem_of_lookup_total_2. vm_compute. lia.
  - vm_compute. reflexivity.
  - vm_compute. reflexivity.
  - vm_compute. discriminate.
Defined.

(** ** The callers ([src/app.py], [src/test_ai_system.py]) *)

(** The records that the page shows: [scored_listings[:10]]. *)
Definition displayed (scored_listings : list (gmap string value))
    : list (gmap string value) :=
  take 10 scored_listings.

(** X19.  The ten records that the page shows are the best ones: no record
    that is left out has a higher score than a record that is shown. *)
Theorem displayed_are_best listings prefs out r r' :
  score_listings listings prefs = Ok out →
  r ∈ displayed out → r' ∈ drop 10 out → score_of r' <= score_of r.
Proof.
  intros Hout Hr Hr'. unfold displayed in Hr.
  apply list_elem_of_lookup in Hr as [i Hi]. apply list_elem_of_lookup in Hr' as [j Hj].
  apply lookup_take_Some in Hi as [Hi Hlt]. rewrite lookup_drop in Hj.
  apply (output_descending _ _ _ i (10 + j) r r' Hout); [lia|done|done].
Qed.

(** The preferences that the sidebar builds from its widgets: the three
    bounds and the five sliders, each weight being the slider value over
    100. *)
Definition sidebar_preferences (max_price min_beds min_baths : Q)
    (price_weight location_weight size_weight bedroom_weight age_weight : Z)
    : preferences :=
  {| max_price := Some max_price; min_beds := Some min_beds;
     min_baths := Some min_baths;
     priorities :=
       list_to_map
         [("price", inject_Z price_weight / 100);
          ("location", inject_Z location_weight / 100);
          ("size", inject_Z size_weight / 100);
          ("bedrooms", inject_Z bedroom_weight / 100);
          ("age", inject_Z age_weight / 100)] |}.

Lemma sidebar_priorities max_price min_beds min_baths pw lw sw bw aw :
  priorities (sidebar_preferences max_price min_beds min_baths pw lw sw bw aw)
  = <["price" := inject_Z pw / 100]>
      (<["location" := inject_Z lw / 100]>
         (<["size" := inject_Z sw / 100]>
            (<["bedrooms" := inject_Z bw / 100]>
               (<["age" := inject_Z aw / 100]> ∅)))).
Proof. reflexivity. Qed.

Lemma sidebar_weights max_price min_beds min_baths pw lw sw bw aw :
  let prio :=
    priorities (sidebar_preferences max_price min_beds min_baths pw lw sw bw aw) in
  get_weight prio "price" = inject_Z pw / 100 ∧
  get_weight prio "location" = inject_Z lw / 100 ∧
  get_weight prio "size" = inject_Z sw / 100 ∧
  get_weight prio "bedrooms" = inject_Z bw / 100 ∧
  get_weight prio "age" = inject_Z aw / 100 ∧
  prio !! "bedroom" = None.
Proof.
  intros prio. unfold prio, get_weight. rewrite sidebar_priorities.
  repeat split;
    repeat (rewrite lookup_insert_ne by done); rewrite ?lookup_insert_eq; done.
Qed.

(** X20.  For listings and bounds in the range of [moderate]: when the
    five sliders of the sidebar (each from 0 up) add up
    to 100, the case in which the page shows no warning, every score is
    between 0 and 100, as the page prints it as a percentage. *)
Theorem sidebar_scores_percent listings max_price min_beds min_baths
    pw lw sw bw aw out r :
  moderate_listings listings →
  moderate max_price → moderate min_beds → moderate min_baths →
  (0 ≤ pw)%Z → (0 ≤ lw)%Z → (0 ≤ sw)%Z → (0 ≤ bw)%Z → (0 ≤ aw)%Z →
  (pw + lw + sw + bw + aw = 100)%Z →
  score_listings listings
    (sidebar_preferences max_price min_beds min_baths pw lw sw bw aw) = Ok out →
  r ∈ out → 0 <= score_of r ∧ score_of r <= 100.
Proof.
  intros _ _ _ _ Hp Hl Hs Hb Ha Htotal Hout Hr.
  destruct (sidebar_weights max_price min_beds min_baths pw lw sw bw aw)
    as (Wp & Wl & Ws & Wb & Wa & Hnone).
  set (prefs := sidebar_preferences max_price min_beds min_baths pw lw sw bw aw) in *.
  assert (∀ z : Z, (0 ≤ z)%Z → 0 <= inject_Z z / 100) as Hdiv.
  { intros z Hz. apply Qle_shift_div_l; [lra|].
    rewrite Qmult_0_l. change 0 with (inject_Z 0). by rewrite <- Zle_Qle. }
  destruct (weighted_score_between listings prefs out r) as [H0 H100]; try done.
  { intros k Hk. unfold criteria in Hk. rewrite !elem_of_cons in Hk.
    destruct Hk as [->|[->|[->|[->|[->|[]%elem_of_nil]]]]].
    - rewrite Wp. by apply Hdiv.
    - rewrite Wl. by apply Hdiv.
    - rewrite Ws. by apply Hdiv.
    - rewrite Wb. by apply Hdiv.
    - rewrite Wa. by apply Hdiv. }
  split; [done|]. eapply Qle_trans; [exact H100|].
  assert (total_weight (priorities prefs) == 1) as E.
  { unfold total_weight, criteria.
    change (Qsum (get_weight (priorities prefs) <$> _))
      with (get_weight (priorities prefs) "price"
            + (get_weight (priorities prefs) "location"
               + (get_weight (priorities prefs) "size"
                  + (get_weight (priorities prefs) "bedrooms"
                     + (get_weight (priorities prefs) "age" + 0))))).
    rewrite Wp, Wl, Ws, Wb, Wa.
    assert (inject_Z pw + inject_Z lw + inject_Z sw + inject_Z bw + inject_Z aw
            == 100) as E100.
    { rewrite <- !inject_Z_plus, Htotal. reflexivity. }
    set (a := inject_Z pw) in *. set (b := inject_Z lw) in *.
    set (c := inject_Z sw) in *. set (d := inject_Z bw) in *.
    set (e := inject_Z aw) in *.
    assert (a / 100 + (b / 100 + (c / 100 + (d / 100 + (e / 100 + 0))))
            == (a + b + c + d + e) / 100) as -> by (field; lra).
    rewrite E100. reflexivity. }
  rewrite (round2_proper _ (100 * 1)) by (by rewrite E).
  vm_compute. discriminate.
Qed.

Definition sidebar_scored : list (gmap string value) :=
  match score_listings sample_listings (sidebar_preferences 500000 3 2 30 25 20 15 10) with
  | Ok out => out
  | Raise _ => []
  end.

Lemma sidebar_scores_percent_witness :
  0 <= score_of (sidebar_scored !!! 0%nat) ∧ score_of (sidebar_scored !!! 0%nat) <= 100.
Proof.
  apply (sidebar_scores_percent sample_listings 500000 3 2 30 25 20 15 10
           sidebar_scored); try lia.
  - exact sample_listings_moderate.
  - apply (bool_decide_unpack _). vm_compute. exact I.
  - apply (bool_decide_unpack _). vm_compute. exact I.
  - apply (bool_decide_unpack _). vm_compute. exact I.
  - unfold sidebar_scored. apply Ok_match. vm_compute. reflexivity.
  - apply list_elem_of_lookup_total_2. vm_compute. lia.
Defined.

(** Eleven listings, of prices 100000, 101000, ... *)
Definition eleven_listings : list listing :=
  (λ i : nat, numeric_listing "x"
                [("price", 100000 + inject_Z (Z.of_nat i) * 1000);
                 ("beds", 3); ("baths", 2)]) <$> seq 0 11.

Definition eleven_scored : list (gmap string value) :=
  match score_listings eleven_listings (only_priorities [("price", 1)]) with
  | Ok out => out
  | Raise _ => []
  end.

Lemma displayed_are_best_witness :
  score_of (eleven_scored !!! 10%nat) <= score_of (eleven_scored !!! 0%nat).
Proof.
  apply (displayed_are_best eleven_listings (only_priorities [("price", 1)])
           eleven_scored).
  - unfold eleven_scored. apply Ok_match. vm_compute. reflexivity.
  - apply (list_elem_of_lookup_2 _ 0). apply lookup_take_Some.
    split; [|lia]. apply list_lookup_lookup_total_lt. vm_compute. lia.
  - apply (list_elem_of_lookup_2 _ 0). rewrite lookup_drop.
    apply list_lookup_lookup_total_lt. vm_compute. lia.
Defined.
